(** * turtlesoup.ts: turtle-graphics generators over the reals

    A shallow embedding of [src/turtlesoup.ts].  JavaScript numbers are
    modelled as mathematical reals ([R]): the specification types every
    quantity as "real" and its properties are stated over exact
    arithmetic, so IEEE-754 rounding, NaN and the infinities are outside
    the model.  The built-ins the source calls ([Math.round],
    [Math.atan2], [Number.prototype.toFixed]) are defined from their
    ECMAScript descriptions.  A call either completes normally or throws;
    the turtle, a mutable object in the source, is threaded explicitly.

    The module [Binary64] embeds the same functions a second time on
    binary64 numbers, as the program actually computes: it shows where a
    property of the exact arithmetic is lost to rounding.  Every theorem
    about the real-number embedding is a statement in exact arithmetic. *)

From Stdlib Require Import Reals Lra Lia ZArith List String Ascii Zfloor.
From Stdlib Require Import DecimalString.
From Stdlib Require PrimFloat FloatOps FloatAxioms SpecFloat.
Import ListNotations.

Open Scope R_scope.

(** ** Completions: normal return or a thrown exception *)

Inductive JsError : Type :=
| TypeError (message : string).

Inductive Completion (A : Type) : Type :=
| Normal (a : A)
| Throw (e : JsError).

Arguments Normal {A} a.
Arguments Throw {A} e.

Definition bind {A B : Type} (c : Completion A) (k : A -> Completion B)
  : Completion B :=
  match c with
  | Normal a => k a
  | Throw e => Throw e
  end.

Notation "x <- c ;; k" := (bind c (fun x => k))
  (at level 61, c at next level, right associativity).
Notation "' pat <- c ;; k" := (bind c (fun x => match x with pat => k end))
  (at level 61, pat pattern, c at next level, right associativity).

(** ** JavaScript built-ins *)

Module Math.

(** [Math.round(v)]: the integer nearest to [v], ties going up. *)
Definition round (v : R) : R := IZR (Zfloor (v + / 2)).

(** [Math.atan2(b, a)]: the angle of the point [(a, b)], in (-PI, PI]. *)
Definition atan2 (b a : R) : R :=
  if Rlt_dec 0 a then atan (b / a)
  else if Rlt_dec a 0 then
    (if Rle_dec 0 b then atan (b / a) + PI else atan (b / a) - PI)
  else if Rlt_dec 0 b then PI / 2
  else if Rlt_dec b 0 then - (PI / 2)
  else 0.

End Math.

Module NumberPrototype.

Open Scope string_scope.

Fixpoint zeros (n : nat) : string :=
  match n with
  | O => ""
  | S n' => "0" ++ zeros n'
  end.

(** [v.toFixed(fractionDigits)] for [|v| < 10^21], the range on which
    the built-in prints plain decimal digits: pick the integer [n]
    nearest to [|v| * 10^f] (the larger one on a tie), print it, pad it
    on the left to [f + 1] digits, and put the point before the last
    [f] digits; a negative [v] gets a leading minus sign. *)
Definition toFixed (v : R) (fractionDigits : nat) : string :=
  let s := if Rlt_dec v 0 then "-" else "" in
  let a := if Rlt_dec v 0 then (- v)%R else v in
  let n := Zfloor (a * 10 ^ fractionDigits + / 2) in
  let m := NilZero.string_of_uint (N.to_uint (Z.to_N n)) in
  let k := String.length m in
  let m := if (k <=? fractionDigits)%nat
           then zeros (fractionDigits + 1 - k) ++ m else m in
  let k := String.length m in
  if (fractionDigits =? 0)%nat then s ++ m
  else s ++ substring 0 (k - fractionDigits) m ++ "."
         ++ substring (k - fractionDigits) fractionDigits m.

End NumberPrototype.

(** ** Loops *)

(** [body] run at the indices [i], [i+1], ..., [count] times, stopping
    at the first throw. *)
Fixpoint for_loop {S : Type} (i count : nat)
    (body : nat -> S -> Completion S) (s : S) : Completion S :=
  match count with
  | O => Normal s
  | Datatypes.S count' =>
      s' <- body i s ;; for_loop (Datatypes.S i) count' body s'
  end.

(** [for (let i = lo; i <= hi; i++)] with literal integer bounds. *)
Definition for_range {S : Type} (lo hi : nat)
    (body : nat -> S -> Completion S) (s : S) : Completion S :=
  for_loop lo (hi + 1 - lo) body s.

(** The number of passes of [for (let i = 0; i < bound; i++)] when
    [bound] is a real: the indices [0, 1, 2, ...] below [bound]. *)
Definition trip_count (bound : R) : nat := Z.to_nat (Zceil bound).

(** ** Data model *)

Record Point : Type := mkPoint { x : R; y : R }.

Definition Color : Type := string.

Record Segment : Type :=
  mkSegment { seg_start : Point; seg_end : Point; seg_color : Color }.

(** Modelled from the spec: the [Turtle] interface of [turtle.ts], which
    is not among the sources.  The generators use four of its
    operations; the mutators may throw, the getter is pure. *)
Class Turtle (T : Type) : Type := {
  forward : T -> R -> Completion T;
  turn : T -> R -> Completion T;
  color : T -> Color -> Completion T;
  getHeading : T -> R
}.

(** Modelled from the spec: the class [SimpleTurtle] of [turtle.ts],
    which is not among the sources.  The state is position, heading in
    degrees (0 along +x, counter-clockwise) and pen colour, with the
    append-only path of drawn segments.  [forward] moves along the
    heading and records one segment from the old to the new position in
    the current colour; [turn] adds to the heading without wrap-around;
    [color] sets the pen colour.  None of them throws. *)
Record SimpleTurtle : Type := mkSimpleTurtle {
  position : Point;
  heading : R;
  penColor : Color;
  path : list Segment
}.

Definition simple_forward (t : SimpleTurtle) (units : R)
  : Completion SimpleTurtle :=
  let rad := heading t * PI / 180 in
  let target := mkPoint (x (position t) + units * cos rad)
                        (y (position t) + units * sin rad) in
  Normal (mkSimpleTurtle target (heading t) (penColor t)
            (path t ++ [mkSegment (position t) target (penColor t)])).

Definition simple_turn (t : SimpleTurtle) (degrees : R)
  : Completion SimpleTurtle :=
  Normal (mkSimpleTurtle (position t) (heading t + degrees) (penColor t)
            (path t)).

Definition simple_color (t : SimpleTurtle) (c : Color)
  : Completion SimpleTurtle :=
  Normal (mkSimpleTurtle (position t) (heading t) c (path t)).

#[export] Instance SimpleTurtle_Turtle : Turtle SimpleTurtle := {
  forward := simple_forward;
  turn := simple_turn;
  color := simple_color;
  getHeading := heading
}.

Definition getPath (t : SimpleTurtle) : list Segment := path t.

(** Modelled from the spec: a turtle at the start of a session.  The
    spec fixes no default origin, heading or colour; these are used for
    concrete runs only. *)
Definition newSimpleTurtle : SimpleTurtle :=
  mkSimpleTurtle (mkPoint 0 0) 0 "black"%string [].

(** A second implementation of the interface, used to observe which
    operations a generator invokes and in what order: the turtle is the
    log of the calls made on it. *)
Inductive Call : Type :=
| CallForward (units : R)
| CallTurn (degrees : R)
| CallColor (c : Color).

Definition CallLog : Type := list Call.

#[export] Instance CallLog_Turtle : Turtle CallLog := {
  forward := fun log units => Normal (log ++ [CallForward units]);
  turn := fun log degrees => Normal (log ++ [CallTurn degrees]);
  color := fun log c => Normal (log ++ [CallColor c]);
  getHeading := fun _ => 0
}.

Definition colorOfCall (c : Call) : option Color :=
  match c with
  | CallColor c' => Some c'
  | _ => None
  end.

Fixpoint colorsSet (log : CallLog) : list Color :=
  match log with
  | [] => []
  | c :: log' =>
      match colorOfCall c with
      | Some c' => c' :: colorsSet log'
      | None => colorsSet log'
      end
  end.

(** ** The functions of turtlesoup.ts *)

Definition calculateChordLength (radius angleInDegrees : R) : R :=
  let halfAngle := angleInDegrees / 2 in
  let radians := (halfAngle * PI) / 180 in
  Math.round (2 * radius * sin radians * 1000000) / 1000000.

Definition computeDistance (point1 point2 : Point) : R :=
  let xDiff := x point1 - x point2 in
  let yDiff := y point1 - y point2 in
  sqrt (xDiff * xDiff + yDiff * yDiff).

(** [pointSequence[i]] followed by a property read: an index outside
    the array yields [undefined], whose property read throws. *)
Definition element_at (pointSequence : list Point) (i : nat)
  : Completion Point :=
  match nth_error pointSequence i with
  | Some p => Normal p
  | None => Throw (TypeError "Cannot read properties of undefined")
  end.

Definition colorPalette : list Color :=
  ["teal"; "coral"; "indigo"; "gold";
   "crimson"; "navy"; "olive"; "maroon"]%string.

Section Generators.

Context {T : Type} `{Turtle T}.

Definition drawPolygon (turtle : T) (sideLength numSides : R)
  : Completion T :=
  let anglePerTurn := 360 / numSides in
  for_loop 0 (trip_count numSides)
    (fun _ turtle =>
       turtle <- forward turtle sideLength ;;
       turn turtle anglePerTurn)
    turtle.

(** The loop state is the turtle together with [currentRadius]. *)
Definition drawSpiralingCircle (turtle : T) (radius iterations : R)
  : Completion T :=
  let baseAngle := 360 / iterations in
  '(turtle, _) <-
    for_loop 0 (trip_count iterations)
      (fun _ '(turtle, currentRadius) =>
         let chordLength := calculateChordLength currentRadius baseAngle in
         turtle <- forward turtle chordLength ;;
         turtle <- turn turtle baseAngle ;;
         Normal (turtle, currentRadius * 1.05))
      (turtle, radius) ;;
  Normal turtle.

(** The loop state is the turtle together with the instructions pushed
    so far; both are returned. *)
Definition plotOptimalPath (turtle : T) (pointSequence : list Point)
  : Completion (T * list string) :=
  for_loop 0 (Z.to_nat (Z.of_nat (List.length pointSequence) - 1))
    (fun i '(turtle, navigationInstructions) =>
       currentPoint <- element_at pointSequence i ;;
       nextPoint <- element_at pointSequence (i + 1) ;;
       let deltaX := x nextPoint - x currentPoint in
       let deltaY := y nextPoint - y currentPoint in
       let travelAngle := Math.atan2 deltaY deltaX * 180 / PI in
       let travelDistance := computeDistance currentPoint nextPoint in
       let turnAngle := travelAngle - getHeading turtle in
       turtle <- turn turtle turnAngle ;;
       turtle <- forward turtle travelDistance ;;
       Normal (turtle,
               navigationInstructions ++
               [("Turn " ++ NumberPrototype.toFixed turnAngle 2
                   ++ " degrees")%string;
                ("Move " ++ NumberPrototype.toFixed travelDistance 2
                   ++ " units")%string]))
    (turtle, []).

(** The palette index of the outer step [complexity]. *)
Definition paletteIndex (complexity : nat) : nat :=
  ((complexity * 2) mod List.length colorPalette)%nat.

Definition createGeometricArtwork (turtle : T) : Completion T :=
  for_range 1 5
    (fun complexity turtle =>
       turtle <- color turtle
                   (nth (paletteIndex complexity) colorPalette
                      "undefined"%string) ;;
       for_range 3 8
         (fun i turtle =>
            turtle <- drawPolygon turtle (50 / INR complexity) (INR i) ;;
            turn turtle (360 / (INR i * INR complexity)))
         turtle)
    turtle.

End Generators.

(** ** The specification's wording, for comparison with the code *)

Definition radians_of_degrees (d : R) : R := d * PI / 180.

(** "Rounded to 6 decimal digits (multiply by 1e6, round, divide by
    1e6)". *)
Definition round6 (v : R) : R := Math.round (v * 1000000) / 1000000.

(** "2 * radius * sin(angleDegrees/2 in radians), rounded to 6 decimal
    digits". *)
Definition chord_spec (r a : R) : R :=
  round6 (2 * r * sin (radians_of_degrees (a / 2))).

(** Equality of headings modulo a full turn. *)
Definition same_heading_mod_360 (h1 h2 : R) : Prop :=
  exists k : Z, h1 = h2 + 360 * IZR k.

Section SpecWording.

Context {T : Type} `{Turtle T}.

(** "[n]-fold repetition of [step]". *)
Fixpoint repeat_step (n : nat) (step : T -> Completion T) (t : T)
  : Completion T :=
  match n with
  | O => Normal t
  | S n' => t' <- step t ;; repeat_step n' step t'
  end.

(** "Move forward sideLength, turn by 360/numSides degrees". *)
Definition polygon_step (s angle : R) (t : T) : Completion T :=
  t' <- forward t s ;; turn t' angle.

(** Step [k] of the spiral: "moves forward by
    chordLength(r * 1.05^k, 360/iterations) and then turns by
    360/iterations". *)
Definition spiral_step (r angle : R) (k : nat) (t : T) : Completion T :=
  t' <- forward t (calculateChordLength (r * 1.05 ^ k) angle) ;;
  turn t' angle.

(** The steps [k], [k+1], ..., [n] of them, in order. *)
Fixpoint spiral_steps (r angle : R) (k n : nat) (t : T) : Completion T :=
  match n with
  | O => Normal t
  | S n' => t' <- spiral_step r angle k t ;;
            spiral_steps r angle (S k) n' t'
  end.

(** "For each consecutive pair (current, next): compute the bearing via
    atan2(deltaY, deltaX) converted to degrees; compute the turn needed
    as (bearing - current heading); issue turn then forward; emit two
    log lines". *)
Definition bearing (current next : Point) : R :=
  Math.atan2 (y next - y current) (x next - x current) * 180 / PI.

Fixpoint travel (t : T) (current : Point) (rest : list Point)
    (emitted : list string) : Completion (T * list string) :=
  match rest with
  | [] => Normal (t, emitted)
  | next :: rest' =>
      let turnAngle := bearing current next - getHeading t in
      let dist := computeDistance current next in
      t1 <- turn t turnAngle ;;
      t2 <- forward t1 dist ;;
      travel t2 next rest'
        (emitted ++
         [("Turn " ++ NumberPrototype.toFixed turnAngle 2 ++ " degrees")%string;
          ("Move " ++ NumberPrototype.toFixed dist 2 ++ " units")%string])
  end.

End SpecWording.

(** The length of a recorded segment. *)
Definition segment_length (sg : Segment) : R :=
  computeDistance (seg_start sg) (seg_end sg).

(** A turtle none of whose mutators throws. *)
Definition never_throws (T : Type) `{Turtle T} : Prop :=
  (forall t d, exists t', forward t d = Normal t') /\
  (forall t d, exists t', turn t d = Normal t') /\
  (forall t c, exists t', color t c = Normal t').

(** ** Reference descriptions for the further properties *)

(** The polyline drawn from [pos] when the waypoints [current :: rest]
    are followed: each leg is the displacement between two consecutive
    waypoints, in colour [c]. *)
Fixpoint legs_from (pos current : Point) (rest : list Point) (c : Color)
  : list Segment :=
  match rest with
  | [] => []
  | next :: rest' =>
      let target := mkPoint (x pos + (x next - x current))
                            (y pos + (y next - y current)) in
      mkSegment pos target c :: legs_from target next rest' c
  end.

(** Where that polyline ends. *)
Fixpoint end_of_legs (pos current : Point) (rest : list Point) : Point :=
  match rest with
  | [] => pos
  | next :: rest' =>
      end_of_legs (mkPoint (x pos + (x next - x current))
                           (y pos + (y next - y current))) next rest'
  end.

(** The heading after the waypoints are followed: the bearing of the
    last leg, or the initial heading when there is no leg. *)
Fixpoint heading_after (h : R) (current : Point) (rest : list Point) : R :=
  match rest with
  | [] => h
  | next :: rest' => heading_after (bearing current next) next rest'
  end.

(** The segments joining the consecutive waypoints themselves. *)
Fixpoint waypoint_segments (current : Point) (rest : list Point) (c : Color)
  : list Segment :=
  match rest with
  | [] => []
  | next :: rest' => mkSegment current next c :: waypoint_segments next rest' c
  end.

(** The colour selected at the outer step [complexity] of the artwork. *)
Definition paletteColor (complexity : nat) : Color :=
  nth (paletteIndex complexity) colorPalette "undefined"%string.

(** The waypoints [main] hands to the planner. *)
Definition pointsToExplore : list Point :=
  [mkPoint 10 10; mkPoint 100 50; mkPoint 200 150].

(** ** The same functions on binary64 numbers *)

Module Binary64.

Import PrimFloat.
Local Open Scope float_scope.

Record Point64 : Type := mkPoint64 { x64 : float; y64 : float }.

(** The operations [-], [*], [+] and [Math.sqrt] are the correctly
    rounded IEEE-754 ones. *)
Definition computeDistance64 (point1 point2 : Point64) : float :=
  let xDiff := x64 point1 - x64 point2 in
  let yDiff := y64 point1 - y64 point2 in
  sqrt (xDiff * xDiff + yDiff * yDiff).

(** [Math.PI], the double nearest to pi. *)
Definition Math_PI : float := 0x1.921fb54442d18p+1.

(** The double that the literal [1.05] denotes. *)
Definition growthFactor : float := 0x1.0cccccccccccdp+0.

(** [Math.round] on a double: a value that is not finite or is already
    integral (every double of magnitude 2^52 or more is) is returned as
    it is; otherwise the nearest integer, the upper one on a tie, with
    the sign of the argument when the result is zero.  Adding and
    subtracting 2^52 yields an integer next to [v], from which the floor
    is taken; [v - floor v] is exact. *)
Definition Math_round64 (v : float) : float :=
  if negb (abs v <? 0x1p+52) then v
  else
    let r := if 0 <=? v then (v + 0x1p+52) - 0x1p+52
             else (v - 0x1p+52) + 0x1p+52 in
    let lower := if v <? r then r - 1 else r in
    let n := if (v - lower) <? 0.5 then lower else lower + 1 in
    if n =? 0 then (if ((v <? 0) || (1 / v <? 0))%bool then -0 else 0)
    else n.

(** Modelled from the spec: the [Turtle] interface of [turtle.ts], here
    with binary64 arguments. *)
Class Turtle64 (T : Type) : Type := {
  forward64 : T -> float -> Completion T;
  turn64 : T -> float -> Completion T;
  color64 : T -> Color -> Completion T;
  getHeading64 : T -> float
}.

(** A turtle that logs the calls made on it. *)
Inductive Call64 : Type :=
| CallForward64 (units : float)
| CallTurn64 (degrees : float)
| CallColor64 (c : Color).

Definition CallLog64 : Type := list Call64.

#[export] Instance CallLog64_Turtle : Turtle64 CallLog64 := {
  forward64 := fun log units => Normal (log ++ [CallForward64 units]);
  turn64 := fun log degrees => Normal (log ++ [CallTurn64 degrees]);
  color64 := fun log c => Normal (log ++ [CallColor64 c]);
  getHeading64 := fun _ => 0
}.

(** Modelled from the spec: "turn adds deltaDegrees to heading".  The
    heading a turtle starting at [h] reaches after the logged calls,
    the additions being binary64 additions. *)
Fixpoint headingAfter64 (h : float) (log : CallLog64) : float :=
  match log with
  | [] => h
  | CallTurn64 degrees :: log' => headingAfter64 (h + degrees) log'
  | _ :: log' => headingAfter64 h log'
  end.

(** [for (let i = 0; i < bound; i++)] with a binary64 counter.  The
    loop need not end (the counter stops growing at 2^53), so the
    embedding takes fuel: [None] means the fuel ran out first. *)
Fixpoint for_loop64 {St : Type} (fuel : nat) (i bound : float)
    (body : St -> Completion St) (s : St) : option (Completion St) :=
  if i <? bound then
    match fuel with
    | O => None
    | S fuel' =>
        match body s with
        | Normal s' => for_loop64 fuel' (i + 1) bound body s'
        | Throw e => Some (Throw e)
        end
    end
  else Some (Normal s).

Section Generators64.

Context {T : Type} `{Turtle64 T}.

(** [Math.sin], whose results the language leaves to the
    implementation. *)
Variable Math_sin : float -> float.

Definition drawPolygon64 (fuel : nat) (turtle : T)
    (sideLength numSides : float) : option (Completion T) :=
  let anglePerTurn := 360 / numSides in
  for_loop64 fuel 0 numSides
    (fun turtle =>
       turtle <- forward64 turtle sideLength ;;
       turn64 turtle anglePerTurn)
    turtle.

Definition calculateChordLength64 (radius angleInDegrees : float) : float :=
  let halfAngle := angleInDegrees / 2 in
  let radians := (halfAngle * Math_PI) / 180 in
  Math_round64 (2 * radius * Math_sin radians * 1000000) / 1000000.

Definition drawSpiralingCircle64 (fuel : nat) (turtle : T)
    (radius iterations : float) : option (Completion T) :=
  let baseAngle := 360 / iterations in
  match
    for_loop64 fuel 0 iterations
      (fun '(turtle, currentRadius) =>
         let chordLength := calculateChordLength64 currentRadius baseAngle in
         turtle <- forward64 turtle chordLength ;;
         turtle <- turn64 turtle baseAngle ;;
         Normal (turtle, currentRadius * growthFactor))
      (turtle, radius)
  with
  | Some (Normal (turtle, _)) => Some (Normal turtle)
  | Some (Throw e) => Some (Throw e)
  | None => None
  end.

End Generators64.

End Binary64.

(** ** Facts about the built-ins *)

Lemma round_IZR (k : Z) : Math.round (IZR k) = IZR k.
Proof.
  unfold Math.round. f_equal. apply Zfloor_eq. lra.
Qed.

Lemma round_bounds (v : R) : v - / 2 < Math.round v <= v + / 2.
Proof.
  unfold Math.round. pose proof (Zfloor_bound (v + / 2)). lra.
Qed.

Lemma atan2_right (a : R) : 0 < a -> Math.atan2 0 a = 0.
Proof.
  intros Ha. unfold Math.atan2.
  destruct (Rlt_dec 0 a) as [_ | Hn]; [| contradiction].
  unfold Rdiv. rewrite Rmult_0_l. apply atan_0.
Qed.

Lemma atan2_up (b : R) : 0 < b -> Math.atan2 b 0 = PI / 2.
Proof.
  intros Hb. unfold Math.atan2.
  destruct (Rlt_dec 0 0) as [Hl | _]; [lra |].
  destruct (Rlt_dec 0 b) as [_ | Hn]; [reflexivity | contradiction].
Qed.

Lemma atan2_left (a : R) : a < 0 -> Math.atan2 0 a = PI.
Proof.
  intros Ha. unfold Math.atan2.
  destruct (Rlt_dec 0 a) as [Hl | _]; [lra |].
  destruct (Rlt_dec a 0) as [_ | Hn]; [| contradiction].
  destruct (Rle_dec 0 0) as [_ | Hn]; [| lra].
  unfold Rdiv. rewrite Rmult_0_l, atan_0. lra.
Qed.

Lemma toFixed_5 : NumberPrototype.toFixed 5 2 = "5.00"%string.
Proof.
  unfold NumberPrototype.toFixed.
  destruct (Rlt_dec 5 0) as [Hl | _]; [lra |].
  replace (Zfloor (5 * 10 ^ 2 + / 2)) with 500%Z.
  - reflexivity.
  - symmetry. apply Zfloor_eq. simpl. lra.
Qed.

(** ** Chord length *)

Lemma chord_refines_spec (r a : R) : calculateChordLength r a = chord_spec r a.
Proof.
  unfold calculateChordLength, chord_spec, round6, radians_of_degrees.
  reflexivity.
Qed.

Lemma chord_zero_angle (r : R) : calculateChordLength r 0 = 0.
Proof.
  unfold calculateChordLength.
  replace (0 / 2 * PI / 180) with 0 by lra.
  rewrite sin_0.
  replace (2 * r * 0 * 1000000) with (IZR 0) by lra.
  rewrite round_IZR. lra.
Qed.

Lemma chord_straight_angle (r : R) :
  calculateChordLength r 180 = round6 (2 * r).
Proof.
  unfold calculateChordLength, round6.
  replace (180 / 2 * PI / 180) with (PI / 2) by lra.
  rewrite sin_PI2. do 2 f_equal. lra.
Qed.

Lemma round6_exact (v : R) (k : Z) : v * 1000000 = IZR k -> round6 v = v.
Proof.
  intros Hk. unfold round6. rewrite Hk, round_IZR, <- Hk. lra.
Qed.

(** C1, as amended.  In exact real arithmetic the code computes the
    specification's formula, the exact chord [2 r sin(a/2)] rounded to
    six decimals, for every radius and angle; at angle 0 it is 0; at
    angle 180 it is [2 r] rounded to six decimals, which is [2 r] itself
    whenever [2 r * 1e6] is an integer. *)
Theorem calculateChordLength_spec (r a : R) :
  calculateChordLength r a = chord_spec r a /\
  calculateChordLength r 0 = 0 /\
  calculateChordLength r 180 = round6 (2 * r) /\
  (forall k : Z, 2 * r * 1000000 = IZR k -> calculateChordLength r 180 = 2 * r).
Proof.
  split; [| split; [| split]].
  - apply chord_refines_spec.
  - apply chord_zero_angle.
  - apply chord_straight_angle.
  - intros k Hk. rewrite chord_straight_angle. exact (round6_exact _ k Hk).
Qed.

Lemma calculateChordLength_spec_witness :
  2 * 1 * 1000000 = IZR 2000000 /\ calculateChordLength 1 180 = 2 * 1.
Proof.
  split; [lra |].
  apply (proj2 (proj2 (proj2 (calculateChordLength_spec 1 180))) 2000000%Z).
  lra.
Defined.

(** C1 as stated fails: a radius of 1e-7 has diameter 2e-7, which rounds
    to 0 at six decimals. *)
Lemma chord_diameter_counterexample :
  0 <= / 10000000 /\
  calculateChordLength (/ 10000000) 180 <> 2 * / 10000000.
Proof.
  split; [lra |].
  rewrite chord_straight_angle. unfold round6, Math.round.
  replace (Zfloor (2 * / 10000000 * 1000000 + / 2)) with 0%Z.
  - lra.
  - symmetry. apply Zfloor_eq. lra.
Qed.

(** C10.  The chord of an angle equals the chord of its conjugate to a
    full turn, for every radius and angle. *)
Theorem chord_conjugate_angle (r a : R) :
  calculateChordLength r a = calculateChordLength r (360 - a).
Proof.
  unfold calculateChordLength.
  replace ((360 - a) / 2 * PI / 180) with (PI - a / 2 * PI / 180) by lra.
  rewrite sin_PI_x. reflexivity.
Qed.

(** ** Euclidean distance *)

Lemma computeDistance_nonneg (a b : Point) : 0 <= computeDistance a b.
Proof. unfold computeDistance. apply sqrt_pos. Qed.

Lemma computeDistance_sqr (a b : Point) :
  computeDistance a b * computeDistance a b =
  (x a - x b) * (x a - x b) + (y a - y b) * (y a - y b).
Proof.
  unfold computeDistance. cbv zeta. apply sqrt_sqrt.
  pose proof (Rle_0_sqr (x a - x b)) as Hx.
  pose proof (Rle_0_sqr (y a - y b)) as Hy.
  unfold Rsqr in Hx, Hy. lra.
Qed.

Lemma computeDistance_refl (p : Point) : computeDistance p p = 0.
Proof.
  unfold computeDistance.
  replace ((x p - x p) * (x p - x p) + (y p - y p) * (y p - y p)) with 0 by lra.
  apply sqrt_0.
Qed.

Lemma computeDistance_sym (a b : Point) :
  computeDistance a b = computeDistance b a.
Proof.
  unfold computeDistance. f_equal. lra.
Qed.

(** Cauchy-Schwarz in the plane, on the lengths of two displacements. *)
Lemma dot_le_norms (u1 u2 v1 v2 p q : R) :
  0 <= p -> 0 <= q ->
  p * p = u1 * u1 + u2 * u2 ->
  q * q = v1 * v1 + v2 * v2 ->
  u1 * v1 + u2 * v2 <= p * q.
Proof.
  intros Hp Hq Hpp Hqq.
  destruct (Rle_or_lt (u1 * v1 + u2 * v2) (p * q)) as [Hle | Hlt]; [exact Hle |].
  exfalso.
  assert (Hpq : 0 <= p * q) by (apply Rmult_le_pos; assumption).
  assert (Hsq : (p * q) * (p * q) < (u1 * v1 + u2 * v2) * (u1 * v1 + u2 * v2))
    by (apply Rmult_le_0_lt_compat; lra).
  assert (Hcs : (u1 * v1 + u2 * v2) * (u1 * v1 + u2 * v2)
                <= (u1 * u1 + u2 * u2) * (v1 * v1 + v2 * v2)).
  { pose proof (Rle_0_sqr (u1 * v2 - u2 * v1)) as Hc. unfold Rsqr in Hc. lra. }
  assert (Heq : (p * q) * (p * q) = (u1 * u1 + u2 * u2) * (v1 * v1 + v2 * v2)).
  { rewrite <- Hpp, <- Hqq. ring. }
  lra.
Qed.

Lemma computeDistance_triangle (a b c : Point) :
  computeDistance a c <= computeDistance a b + computeDistance b c.
Proof.
  pose proof (computeDistance_nonneg a b) as Hab.
  pose proof (computeDistance_nonneg b c) as Hbc.
  pose proof (computeDistance_nonneg a c) as Hac.
  pose proof (computeDistance_sqr a b) as Sab.
  pose proof (computeDistance_sqr b c) as Sbc.
  pose proof (computeDistance_sqr a c) as Sac.
  pose proof (dot_le_norms _ _ _ _ _ _ Hab Hbc Sab Sbc) as Hdot.
  set (p := computeDistance a b) in *.
  set (q := computeDistance b c) in *.
  set (d := computeDistance a c) in *.
  destruct (Rle_or_lt d (p + q)) as [Hle | Hlt]; [exact Hle |].
  exfalso.
  assert (Hd : d * d = p * p + q * q
               + 2 * ((x a - x b) * (x b - x c) + (y a - y b) * (y b - y c))).
  { rewrite Sac, Sab, Sbc. ring. }
  assert (Hsum : 0 <= p + q) by lra.
  assert (Hbig : (p + q) * (p + q) < d * d)
    by (apply Rmult_le_0_lt_compat; lra).
  lra.
Qed.

(** In exact real arithmetic the distance is a metric: zero from a point
    to itself, symmetric, and satisfying the triangle inequality. *)
Theorem computeDistance_metric :
  (forall p, computeDistance p p = 0) /\
  (forall a b, computeDistance a b = computeDistance b a) /\
  (forall a b c,
     computeDistance a c <= computeDistance a b + computeDistance b c).
Proof.
  split; [| split].
  - exact computeDistance_refl.
  - exact computeDistance_sym.
  - exact computeDistance_triangle.
Qed.

(** ** Loops *)

Lemma trip_count_INR (n : nat) : trip_count (INR n) = n.
Proof.
  unfold trip_count. rewrite INR_IZR_INZ.
  rewrite (Zceil_eq (Z.of_nat n)) by lra.
  apply Nat2Z.id.
Qed.

Lemma trip_count_0 : trip_count 0 = 0%nat.
Proof. exact (trip_count_INR 0). Qed.

(** The count is the number of indices that pass the loop test. *)
Lemma trip_count_test (bound : R) (i : nat) :
  (i < trip_count bound)%nat <-> INR i < bound.
Proof.
  unfold trip_count. pose proof (Zceil_bound bound) as [Hlo Hhi].
  rewrite INR_IZR_INZ. split.
  - intros Hi.
    assert (Hz : (Z.of_nat i + 1 <= Zceil bound)%Z) by lia.
    apply IZR_le in Hz. rewrite plus_IZR in Hz. lra.
  - intros Hi.
    assert (Hz : (Z.of_nat i < Zceil bound)%Z).
    { apply lt_IZR. lra. }
    lia.
Qed.

Lemma for_loop_total {S : Type} (body : nat -> S -> Completion S) :
  (forall i s, exists s', body i s = Normal s') ->
  forall count i s, exists s', for_loop i count body s = Normal s'.
Proof.
  intros Hbody count. induction count as [| count IH]; intros i s.
  - exists s. reflexivity.
  - destruct (Hbody i s) as [s1 H1]. simpl. rewrite H1. simpl. apply IH.
Qed.

(** A property the body maintains is maintained by the loop. *)
Lemma for_loop_invariant {S : Type} (body : nat -> S -> Completion S)
    (Inv : S -> Prop) :
  (forall i s, Inv s -> exists s', body i s = Normal s' /\ Inv s') ->
  forall count i s, Inv s ->
    exists s', for_loop i count body s = Normal s' /\ Inv s'.
Proof.
  intros Hbody count. induction count as [| count IH]; intros i s Hs.
  - exists s. split; [reflexivity | exact Hs].
  - destruct (Hbody i s Hs) as [s1 [H1 Hs1]]. simpl. rewrite H1. simpl.
    apply IH. exact Hs1.
Qed.

Section GenericTurtle.

Context {T : Type} `{Turtle T}.

Lemma for_loop_repeat_step (step : T -> Completion T) (count i : nat) (t : T) :
  for_loop i count (fun _ t => step t) t = repeat_step count step t.
Proof.
  revert i t. induction count as [| count IH]; intros i t; simpl.
  - reflexivity.
  - destruct (step t) as [t' | e]; simpl; [apply IH | reflexivity].
Qed.

Lemma drawPolygon_repeat (t : T) (s : R) (n : nat) :
  drawPolygon t s (INR n) = repeat_step n (polygon_step s (360 / INR n)) t.
Proof.
  unfold drawPolygon. rewrite trip_count_INR.
  apply (for_loop_repeat_step (polygon_step s (360 / INR n))).
Qed.

Lemma drawPolygon_zero (t : T) (s : R) : drawPolygon t s 0 = Normal t.
Proof.
  unfold drawPolygon. rewrite trip_count_0. reflexivity.
Qed.

Lemma drawSpiralingCircle_zero (t : T) (r : R) :
  drawSpiralingCircle t r 0 = Normal t.
Proof.
  unfold drawSpiralingCircle. rewrite trip_count_0. reflexivity.
Qed.

Lemma spiral_loop (r angle : R) (count k i : nat) (t : T) :
  ('(t', _) <-
     for_loop i count
       (fun _ '(turtle, currentRadius) =>
          let chordLength := calculateChordLength currentRadius angle in
          turtle <- forward turtle chordLength ;;
          turtle <- turn turtle angle ;;
          Normal (turtle, currentRadius * 1.05))
       (t, r * 1.05 ^ k) ;;
   Normal t')
  = spiral_steps r angle k count t.
Proof.
  revert k i t. induction count as [| count IH]; intros k i t.
  - reflexivity.
  - simpl for_loop. simpl spiral_steps. unfold spiral_step.
    destruct (forward t (calculateChordLength (r * 1.05 ^ k) angle))
      as [t1 | e]; simpl; [| reflexivity].
    destruct (turn t1 angle) as [t2 | e]; simpl; [| reflexivity].
    replace (r * 1.05 ^ k * 1.05) with (r * 1.05 ^ S k) by (simpl; ring).
    apply IH.
Qed.

Lemma drawSpiralingCircle_steps (t : T) (r : R) (n : nat) :
  drawSpiralingCircle t r (INR n) = spiral_steps r (360 / INR n) 0 n t.
Proof.
  unfold drawSpiralingCircle. rewrite trip_count_INR.
  rewrite <- (spiral_loop r (360 / INR n) n 0 0 t).
  simpl pow. rewrite Rmult_1_r. reflexivity.
Qed.

End GenericTurtle.

(** ** Path planning on any turtle *)

Lemma element_at_middle (pre : list Point) (p : Point) (post : list Point) :
  element_at (pre ++ p :: post) (List.length pre) = Normal p.
Proof.
  unfold element_at. rewrite nth_error_app2 by lia.
  rewrite Nat.sub_diag. reflexivity.
Qed.

Section GenericPlanner.

Context {T : Type} `{Turtle T}.

(** The index loop, entered at index [length pre] with the points
    [current :: rest] still ahead, visits the consecutive pairs. *)
Lemma plot_loop (pre : list Point) (current : Point) (rest : list Point)
    (t : T) (emitted : list string) :
  for_loop (List.length pre) (List.length rest)
    (fun i '(turtle, navigationInstructions) =>
       currentPoint <- element_at (pre ++ current :: rest) i ;;
       nextPoint <- element_at (pre ++ current :: rest) (i + 1) ;;
       let deltaX := x nextPoint - x currentPoint in
       let deltaY := y nextPoint - y currentPoint in
       let travelAngle := Math.atan2 deltaY deltaX * 180 / PI in
       let travelDistance := computeDistance currentPoint nextPoint in
       let turnAngle := travelAngle - getHeading turtle in
       turtle <- turn turtle turnAngle ;;
       turtle <- forward turtle travelDistance ;;
       Normal (turtle,
               navigationInstructions ++
               [("Turn " ++ NumberPrototype.toFixed turnAngle 2
                   ++ " degrees")%string;
                ("Move " ++ NumberPrototype.toFixed travelDistance 2
                   ++ " units")%string]))
    (t, emitted)
  = travel t current rest emitted.
Proof.
  revert pre current t emitted.
  induction rest as [| next rest IH]; intros pre current t emitted.
  - reflexivity.
  - simpl for_loop. simpl travel.
    rewrite element_at_middle. simpl bind.
    replace (List.length pre + 1)%nat with (List.length (pre ++ [current]))
      by (rewrite length_app; reflexivity).
    replace (pre ++ current :: next :: rest)
      with ((pre ++ [current]) ++ next :: rest)
      by (rewrite <- app_assoc; reflexivity).
    rewrite element_at_middle. simpl bind. unfold bearing.
    destruct (turn t _) as [t1 | e]; simpl bind; [| reflexivity].
    destruct (forward t1 _) as [t2 | e]; simpl bind; [| reflexivity].
    replace (S (List.length pre)) with (List.length (pre ++ [current]))
      by (rewrite length_app; simpl; lia).
    apply IH.
Qed.

Lemma plotOptimalPath_travel (t : T) (pts : list Point) :
  plotOptimalPath t pts =
  match pts with
  | [] => Normal (t, [])
  | current :: rest => travel t current rest []
  end.
Proof.
  destruct pts as [| current rest]; [reflexivity |].
  unfold plotOptimalPath.
  replace (Z.to_nat (Z.of_nat (List.length (current :: rest)) - 1))
    with (List.length rest) by (simpl List.length; lia).
  exact (plot_loop [] current rest t []).
Qed.

Lemma travel_length (rest : list Point) :
  forall (t : T) (current : Point) (emitted : list string) t' instrs,
    travel t current rest emitted = Normal (t', instrs) ->
    List.length instrs = (List.length emitted + 2 * List.length rest)%nat.
Proof.
  induction rest as [| next rest IH]; intros t current emitted t' instrs Hrun.
  - simpl in Hrun. injection Hrun as _ <-. simpl. lia.
  - simpl in Hrun.
    destruct (turn t _) as [t1 | e]; simpl in Hrun; [| discriminate].
    destruct (forward t1 _) as [t2 | e]; simpl in Hrun; [| discriminate].
    apply IH in Hrun. rewrite Hrun, length_app. simpl. lia.
Qed.

Lemma travel_total (Htot : never_throws T) (rest : list Point) :
  forall (t : T) (current : Point) (emitted : list string),
    exists t' instrs, travel t current rest emitted = Normal (t', instrs).
Proof.
  destruct Htot as [Hfwd [Hturn _]].
  induction rest as [| next rest IH]; intros t current emitted.
  - exists t, emitted. reflexivity.
  - simpl.
    destruct (Hturn t (bearing current next - getHeading t)) as [t1 H1].
    rewrite H1. simpl.
    destruct (Hfwd t1 (computeDistance current next)) as [t2 H2].
    rewrite H2. simpl. apply IH.
Qed.

End GenericPlanner.

Lemma distance_3_4 : computeDistance (mkPoint 0 0) (mkPoint 3 4) = 5.
Proof.
  unfold computeDistance. simpl.
  replace ((0 - 3) * (0 - 3) + (0 - 4) * (0 - 4)) with (5 * 5) by lra.
  apply sqrt_square. lra.
Qed.

Lemma toFixed_1 : NumberPrototype.toFixed 1 2 = "1.00"%string.
Proof.
  unfold NumberPrototype.toFixed.
  destruct (Rlt_dec 1 0) as [Hl | _]; [lra |].
  replace (Zfloor (1 * 10 ^ 2 + / 2)) with 100%Z.
  - reflexivity.
  - symmetry. apply Zfloor_eq. simpl. lra.
Qed.

Lemma toFixed_minus_270 : NumberPrototype.toFixed (-270) 2 = "-270.00"%string.
Proof.
  unfold NumberPrototype.toFixed.
  destruct (Rlt_dec (-270) 0) as [_ | Hn]; [| lra].
  replace (Zfloor (- -270 * 10 ^ 2 + / 2)) with 27000%Z.
  - reflexivity.
  - symmetry. apply Zfloor_eq. simpl. lra.
Qed.

(** ** The recording turtle *)

Lemma simple_never_throws : never_throws SimpleTurtle.
Proof.
  split; [| split]; intros t v; eexists; reflexivity.
Qed.

Lemma simple_forward_length (t : SimpleTurtle) (d : R) :
  segment_length
    (mkSegment (position t)
       (mkPoint (x (position t) + d * cos (heading t * PI / 180))
                (y (position t) + d * sin (heading t * PI / 180)))
       (penColor t))
  = Rabs d.
Proof.
  unfold segment_length, computeDistance. simpl.
  set (a := heading t * PI / 180).
  rewrite <- sqrt_Rsqr_abs. f_equal. unfold Rsqr.
  pose proof (sin2_cos2 a) as Hsc. unfold Rsqr in Hsc.
  replace ((x (position t) - (x (position t) + d * cos a)) *
           (x (position t) - (x (position t) + d * cos a)) +
           (y (position t) - (y (position t) + d * sin a)) *
           (y (position t) - (y (position t) + d * sin a)))
    with (d * d * (sin a * sin a + cos a * cos a)) by ring.
  rewrite Hsc. ring.
Qed.

(** What a run of polygon steps does to the recording turtle. *)
Lemma simple_polygon_steps (n : nat) (s angle : R) :
  forall t : SimpleTurtle,
  exists t' segs,
    repeat_step n (polygon_step s angle) t = Normal t' /\
    path t' = path t ++ segs /\
    List.length segs = n /\
    Forall (fun sg => segment_length sg = Rabs s) segs /\
    Forall (fun sg => seg_color sg = penColor t) segs /\
    heading t' = heading t + INR n * angle /\
    penColor t' = penColor t.
Proof.
  induction n as [| n IH]; intros t.
  - exists t, []. simpl. rewrite app_nil_r.
    split; [reflexivity |]. split; [reflexivity |]. split; [reflexivity |].
    split; [constructor |]. split; [constructor |].
    split; [lra | reflexivity].
  - rewrite S_INR. cbn [repeat_step]. unfold polygon_step at 1. cbn.
    match goal with
    | |- context [repeat_step n _ ?u] => destruct (IH u) as
          [t' [segs [Hrun [Hpath [Hlen [Hseg [Hcol [Hhead Hpen]]]]]]]]
    end.
    cbn in Hpath, Hcol, Hhead, Hpen.
    eexists t', (_ :: segs). split; [exact Hrun |].
    split; [rewrite Hpath, <- app_assoc; reflexivity |].
    split; [simpl; lia |].
    split; [constructor; [apply simple_forward_length | exact Hseg] |].
    split; [constructor; [reflexivity | exact Hcol] |].
    split; [| exact Hpen].
    rewrite Hhead. ring.
Qed.

(** What a run of spiral steps does to the recording turtle. *)
Lemma simple_spiral_steps (r angle : R) (n : nat) :
  forall (k : nat) (t : SimpleTurtle),
  exists t' segs,
    spiral_steps r angle k n t = Normal t' /\
    path t' = path t ++ segs /\
    map segment_length segs =
      map (fun j => Rabs (calculateChordLength (r * 1.05 ^ j) angle))
          (seq k n) /\
    heading t' = heading t + INR n * angle.
Proof.
  induction n as [| n IH]; intros k t.
  - exists t, []. simpl. rewrite app_nil_r.
    split; [reflexivity |]. split; [reflexivity |].
    split; [reflexivity | lra].
  - rewrite S_INR. cbn [spiral_steps]. unfold spiral_step at 1. cbn.
    match goal with
    | |- context [spiral_steps r angle (S k) n ?u] => destruct (IH (S k) u) as
          [t' [segs [Hrun [Hpath [Hlens Hhead]]]]]
    end.
    cbn in Hpath, Hhead.
    eexists t', (_ :: segs). split; [exact Hrun |].
    split; [rewrite Hpath, <- app_assoc; reflexivity |].
    split.
    + cbn [map seq]. rewrite simple_forward_length, Hlens. reflexivity.
    + rewrite Hhead. ring.
Qed.

Lemma full_turn (n : nat) : (1 <= n)%nat -> INR n * (360 / INR n) = 360.
Proof.
  intros Hn. assert (Hpos : 0 < INR n) by (apply lt_0_INR; lia).
  field. lra.
Qed.

(** ** The generators *)

(** C2, as amended.  In exact real arithmetic, for every [s] and every
    integer [n >= 3], [drawPolygon] is the [n]-fold repetition of
    forward [s] then turn [360/n]; on the recording turtle it returns
    normally, appends exactly [n] segments, each of length [|s|], that
    is of length [s] when [s >= 0], and leaves the heading equal to the
    initial one modulo 360. *)
Theorem drawPolygon_spec (t : SimpleTurtle) (s : R) (n : nat) :
  (3 <= n)%nat ->
  drawPolygon t s (INR n) = repeat_step n (polygon_step s (360 / INR n)) t /\
  exists t' segs,
    drawPolygon t s (INR n) = Normal t' /\
    getPath t' = getPath t ++ segs /\
    List.length segs = n /\
    Forall (fun sg => segment_length sg = Rabs s) segs /\
    (0 <= s -> Forall (fun sg => segment_length sg = s) segs) /\
    same_heading_mod_360 (getHeading t') (getHeading t).
Proof.
  intros Hn. split; [apply drawPolygon_repeat |].
  rewrite drawPolygon_repeat.
  destruct (simple_polygon_steps n s (360 / INR n) t)
    as [t' [segs [Hrun [Hpath [Hlen [Hseg [_ [Hhead _]]]]]]]].
  exists t', segs. split; [exact Hrun |].
  split; [exact Hpath |]. split; [exact Hlen |].
  split; [exact Hseg |]. split.
  - intros Hs. rewrite Rabs_pos_eq in Hseg by exact Hs. exact Hseg.
  - exists 1%Z. simpl getHeading. rewrite Hhead, full_turn by lia. lra.
Qed.

Lemma drawPolygon_spec_witness :
  (3 <= 3)%nat /\ 0 <= 1 /\
  exists t' segs,
    drawPolygon newSimpleTurtle 1 (INR 3) = Normal t' /\
    getPath t' = getPath newSimpleTurtle ++ segs /\
    List.length segs = 3%nat /\
    Forall (fun sg => segment_length sg = 1) segs /\
    same_heading_mod_360 (getHeading t') (getHeading newSimpleTurtle).
Proof.
  split; [lia |]. split; [lra |].
  destruct (drawPolygon_spec newSimpleTurtle 1 3) as [_ Hrun]; [lia |].
  destruct Hrun as [t' [segs [Hrun [Hpath [Hlen [_ [Hseg Hhead]]]]]]].
  exists t', segs. split; [exact Hrun |]. split; [exact Hpath |].
  split; [exact Hlen |]. split; [apply Hseg; lra | exact Hhead].
Defined.

(** C3.  On a turtle whose operations do not throw and a sequence of
    [n >= 2] points, [plotOptimalPath] visits the consecutive pairs in
    order, each time turning by the bearing minus the current heading,
    unnormalised, and moving forward by the distance of the pair; it
    returns [2 * (n - 1)] instructions.  From (0,0) to (3,4) the turn is
    [atan2(4,3) * 180 / PI] minus the initial heading and the move is
    5. *)
Theorem plotOptimalPath_spec {T : Type} `{Turtle T} (t : T)
    (pts : list Point) :
  never_throws T -> (2 <= List.length pts)%nat ->
  plotOptimalPath t pts =
    match pts with
    | [] => Normal (t, [])
    | current :: rest => travel t current rest []
    end /\
  (exists t' instrs,
     plotOptimalPath t pts = Normal (t', instrs) /\
     List.length instrs = (2 * (List.length pts - 1))%nat) /\
  plotOptimalPath t [mkPoint 0 0; mkPoint 3 4] =
    (let turnAngle := Math.atan2 4 3 * 180 / PI - getHeading t in
     t1 <- turn t turnAngle ;;
     t2 <- forward t1 5 ;;
     Normal (t2, [("Turn " ++ NumberPrototype.toFixed turnAngle 2
                     ++ " degrees")%string;
                  "Move 5.00 units"%string])).
Proof.
  intros Htot Hlen. split; [apply plotOptimalPath_travel |]. split.
  - rewrite plotOptimalPath_travel.
    destruct pts as [| current rest]; [simpl in Hlen; lia |].
    destruct (travel_total Htot rest t current []) as [t' [instrs Hrun]].
    exists t', instrs. split; [exact Hrun |].
    rewrite (travel_length _ _ _ _ _ _ Hrun). simpl. lia.
  - rewrite plotOptimalPath_travel. cbn [travel]. unfold bearing.
    rewrite distance_3_4, toFixed_5. cbn [x y].
    replace (4 - 0) with 4 by lra. replace (3 - 0) with 3 by lra.
    reflexivity.
Qed.

Lemma plotOptimalPath_spec_witness :
  never_throws SimpleTurtle /\
  (2 <= List.length [mkPoint 0 0; mkPoint 3 4])%nat /\
  exists t' instrs,
    plotOptimalPath newSimpleTurtle [mkPoint 0 0; mkPoint 3 4]
      = Normal (t', instrs) /\
    List.length instrs = 2%nat.
Proof.
  split; [exact simple_never_throws |]. split; [simpl; lia |].
  apply (plotOptimalPath_spec newSimpleTurtle [mkPoint 0 0; mkPoint 3 4]
           simple_never_throws).
  simpl; lia.
Defined.

(** The turn is not normalised: a turtle heading 270 that must go along
    +x is told to turn by -270, not by 90. *)
Example plotOptimalPath_unnormalised :
  exists t',
    plotOptimalPath (mkSimpleTurtle (mkPoint 0 0) 270 "black"%string [])
      [mkPoint 0 0; mkPoint 1 0]
    = Normal (t', ["Turn -270.00 degrees"; "Move 1.00 units"]%string) /\
    getHeading t' = 0.
Proof.
  rewrite plotOptimalPath_travel. cbn [travel]. unfold bearing.
  cbn [x y getHeading SimpleTurtle_Turtle heading].
  replace (0 - 0) with 0 by lra. replace (1 - 0) with 1 by lra.
  rewrite atan2_right by lra.
  replace (0 * 180 / PI - 270) with (-270) by (unfold Rdiv; ring).
  replace (computeDistance (mkPoint 0 0) (mkPoint 1 0)) with 1.
  - rewrite toFixed_minus_270, toFixed_1.
    cbn [turn forward SimpleTurtle_Turtle simple_turn simple_forward bind
         heading position penColor path].
    eexists. split; [reflexivity |]. cbn [getHeading SimpleTurtle_Turtle heading].
    lra.
  - unfold computeDistance. cbn [x y].
    replace ((0 - 1) * (0 - 1) + (0 - 0) * (0 - 0)) with (1 * 1) by lra.
    symmetry. apply sqrt_square. lra.
Qed.

(** C4, as amended.  With a count of 0 neither generator reports an
    error: each returns normally without invoking any turtle operation,
    so the turtle is handed back unchanged and no segment is recorded.
    This holds for every implementation of the turtle. *)
Theorem zero_count_returns_unchanged {T : Type} `{Turtle T} (t : T)
    (s r : R) :
  drawPolygon t s 0 = Normal t /\ drawSpiralingCircle t r 0 = Normal t.
Proof.
  split; [apply drawPolygon_zero | apply drawSpiralingCircle_zero].
Qed.

(** C4 as stated fails: on a fresh recording turtle neither call
    throws. *)
Lemma zero_count_no_error :
  ~ ((exists e, drawPolygon newSimpleTurtle 1 0 = Throw e) \/
     (exists e, drawSpiralingCircle newSimpleTurtle 1 0 = Throw e)).
Proof.
  intros [[e He] | [e He]].
  - rewrite drawPolygon_zero in He. discriminate.
  - rewrite drawSpiralingCircle_zero in He. discriminate.
Qed.

(** C5.  On an empty sequence and on a single point [plotOptimalPath]
    returns no instruction and hands back the very turtle it was given,
    whatever the turtle: position, heading, pen colour and path are
    untouched. *)
Theorem plotOptimalPath_short {T : Type} `{Turtle T} (t : T) (p : Point) :
  plotOptimalPath t [] = Normal (t, []) /\
  plotOptimalPath t [p] = Normal (t, []).
Proof.
  split; reflexivity.
Qed.

(** C6, as amended.  In exact real arithmetic, for an integer [n >= 1],
    [drawSpiralingCircle] performs the steps [k = 0, ..., n-1], step [k]
    moving forward by the chord of radius [r * 1.05^k] and angle [360/n]
    and then turning by [360/n]; on the recording turtle it returns
    normally having recorded [n] segments of those lengths, with the
    heading advanced by exactly 360, hence equal to the initial heading
    modulo 360. *)
Theorem drawSpiralingCircle_spec (t : SimpleTurtle) (r : R) (n : nat) :
  (1 <= n)%nat ->
  drawSpiralingCircle t r (INR n) = spiral_steps r (360 / INR n) 0 n t /\
  exists t' segs,
    drawSpiralingCircle t r (INR n) = Normal t' /\
    getPath t' = getPath t ++ segs /\
    map segment_length segs =
      map (fun k => Rabs (calculateChordLength (r * 1.05 ^ k) (360 / INR n)))
          (seq 0 n) /\
    getHeading t' = getHeading t + 360 /\
    same_heading_mod_360 (getHeading t') (getHeading t).
Proof.
  intros Hn. split; [apply drawSpiralingCircle_steps |].
  rewrite drawSpiralingCircle_steps.
  destruct (simple_spiral_steps r (360 / INR n) n 0 t)
    as [t' [segs [Hrun [Hpath [Hlens Hhead]]]]].
  rewrite full_turn in Hhead by exact Hn.
  exists t', segs. split; [exact Hrun |]. split; [exact Hpath |].
  split; [exact Hlens |]. split; [exact Hhead |].
  exists 1%Z. simpl getHeading. rewrite Hhead. lra.
Qed.

Lemma drawSpiralingCircle_spec_witness :
  (1 <= 4)%nat /\
  drawSpiralingCircle newSimpleTurtle 10 (INR 4)
    = spiral_steps 10 (360 / INR 4) 0 4 newSimpleTurtle.
Proof.
  split; [lia |].
  apply (drawSpiralingCircle_spec newSimpleTurtle 10 4). lia.
Defined.

(** ** The artwork *)

(** An invariant indexed by the loop counter. *)
Lemma for_loop_indexed {St : Type} (body : nat -> St -> Completion St)
    (Inv : nat -> St -> Prop) :
  (forall i s, Inv i s -> exists s', body i s = Normal s' /\ Inv (1 + i)%nat s') ->
  forall count i s, Inv i s ->
    exists s', for_loop i count body s = Normal s' /\ Inv (count + i)%nat s'.
Proof.
  intros Hbody count. induction count as [| count IH]; intros i s Hs.
  - exists s. split; [reflexivity | exact Hs].
  - destruct (Hbody i s Hs) as [s1 [H1 Hs1]]. simpl for_loop. rewrite H1.
    simpl bind. destruct (IH (1 + i)%nat s1 Hs1) as [s2 [H2 Hs2]].
    exists s2. split; [exact H2 |].
    replace (S count + i)%nat with (count + (1 + i))%nat by lia. exact Hs2.
Qed.

Section TotalTurtle.

Context {T : Type} `{Turtle T}.
Hypothesis Htot : never_throws T.

Lemma drawPolygon_total (t : T) (s n : R) :
  exists t', drawPolygon t s n = Normal t'.
Proof.
  destruct Htot as [Hfwd [Hturn _]].
  unfold drawPolygon. apply for_loop_total. intros _ u.
  destruct (Hfwd u s) as [u1 H1]. rewrite H1. simpl. apply Hturn.
Qed.

Lemma createGeometricArtwork_total (t : T) :
  exists t', createGeometricArtwork t = Normal t'.
Proof.
  unfold createGeometricArtwork, for_range. apply for_loop_total.
  intros complexity u.
  destruct Htot as [_ [Hturn Hcolor]].
  destruct (Hcolor u (nth (paletteIndex complexity) colorPalette
                        "undefined"%string)) as [u1 H1].
  rewrite H1. cbn [bind]. apply for_loop_total. intros i v.
  destruct (drawPolygon_total v (50 / INR complexity) (INR i)) as [v1 Hv].
  rewrite Hv. simpl. apply Hturn.
Qed.

End TotalTurtle.

(** *** Which colours are set *)

Lemma colorsSet_app (l1 l2 : CallLog) :
  colorsSet (l1 ++ l2) = colorsSet l1 ++ colorsSet l2.
Proof.
  induction l1 as [| c l1 IH]; simpl; [reflexivity |].
  destruct (colorOfCall c); simpl; rewrite IH; reflexivity.
Qed.

Lemma drawPolygon_sets_no_color (log : CallLog) (s n : R) :
  exists log', drawPolygon log s n = Normal log' /\
               colorsSet log' = colorsSet log.
Proof.
  unfold drawPolygon.
  destruct (for_loop_invariant
              (fun (_ : nat) (l : CallLog) =>
                 l1 <- forward l s ;; turn l1 (360 / n))
              (fun l => colorsSet l = colorsSet log)) with (count := trip_count n)
              (i := 0%nat) (s := log) as [log' [Hrun Hinv]].
  - intros _ l Hl. eexists. split; [reflexivity |].
    rewrite !colorsSet_app, Hl. simpl. rewrite !app_nil_r. reflexivity.
  - reflexivity.
  - exists log'. split; assumption.
Qed.

Lemma createGeometricArtwork_colors (log : CallLog) :
  exists log',
    createGeometricArtwork log = Normal log' /\
    colorsSet log' =
      colorsSet log ++
      map (fun c => nth (paletteIndex c) colorPalette "undefined"%string)
          (seq 1 5).
Proof.
  unfold createGeometricArtwork, for_range.
  match goal with
  | |- context [for_loop 1 _ ?body log] =>
      destruct (for_loop_indexed body
        (fun i l => (1 <= i)%nat /\
           colorsSet l = colorsSet log ++
             map (fun c => nth (paletteIndex c) colorPalette "undefined"%string)
                 (seq 1 (i - 1)))) with (count := 5%nat) (i := 1%nat) (s := log)
        as [log' [Hrun [_ Hinv]]]
  end.
  - intros i l [Hi Hl]. cbn [color CallLog_Turtle bind].
    match goal with
    | |- context [for_loop 3 _ ?inner ?l0] =>
        destruct (for_loop_invariant inner
          (fun l' => colorsSet l' = colorsSet l0)) with (count := 6%nat)
          (i := 3%nat) (s := l0) as [l1 [Hrun1 Hinv1]]
    end.
    + intros j l' Hl'.
      destruct (drawPolygon_sets_no_color l' (50 / INR i) (INR j))
        as [l2 [Hrun2 Hinv2]].
      rewrite Hrun2. cbn [bind turn CallLog_Turtle]. eexists.
      split; [reflexivity |].
      rewrite colorsSet_app, Hinv2, Hl'. simpl. apply app_nil_r.
    + reflexivity.
    + exists l1. split; [exact Hrun1 |]. split; [lia |].
      rewrite Hinv1, colorsSet_app, Hl. simpl colorsSet.
      replace (1 + i - 1)%nat with (S (i - 1)) by lia.
      rewrite seq_S, map_app, <- app_assoc.
      replace (1 + (i - 1))%nat with i by lia. reflexivity.
  - split; [lia |]. simpl. rewrite app_nil_r. reflexivity.
  - exists log'. split; [exact Hrun | exact Hinv].
Qed.

(** *** What the recording turtle draws *)

Lemma simple_drawPolygon (t : SimpleTurtle) (s : R) (n : nat) :
  exists t' segs,
    drawPolygon t s (INR n) = Normal t' /\
    path t' = path t ++ segs /\
    List.length segs = n /\
    Forall (fun sg => seg_color sg = penColor t) segs /\
    penColor t' = penColor t.
Proof.
  rewrite drawPolygon_repeat.
  destruct (simple_polygon_steps n s (360 / INR n) t)
    as [t' [segs [Hrun [Hpath [Hlen [_ [Hcol [_ Hpen]]]]]]]].
  exists t', segs. repeat (split; [assumption |]). assumption.
Qed.

(** One layer: the polygons of 3 to 8 sides, all in the pen colour. *)
Lemma simple_layer (t : SimpleTurtle) (complexity : nat) :
  exists t' segs,
    for_loop 3 6
      (fun i turtle =>
         turtle <- drawPolygon turtle (50 / INR complexity) (INR i) ;;
         turn turtle (360 / (INR i * INR complexity)))
      t = Normal t' /\
    path t' = path t ++ segs /\
    List.length segs = 33%nat /\
    Forall (fun sg => seg_color sg = penColor t) segs.
Proof.
  match goal with
  | |- context [for_loop 3 6 ?body t] =>
      destruct (for_loop_indexed body
        (fun i u => (3 <= i)%nat /\ penColor u = penColor t /\
           exists segs,
             path u = path t ++ segs /\
             List.length segs = list_sum (seq 3 (i - 3)) /\
             Forall (fun sg => seg_color sg = penColor t) segs))
        with (count := 6%nat) (i := 3%nat) (s := t)
        as [t' [Hrun [_ [_ [segs [Hpath [Hlen Hcol]]]]]]]
  end.
  - intros i u [Hi [Hpen [segs [Hpath [Hlen Hcol]]]]].
    destruct (simple_drawPolygon u (50 / INR complexity) i)
      as [u1 [new [Hrun1 [Hpath1 [Hlen1 [Hcol1 Hpen1]]]]]].
    rewrite Hrun1. cbn [bind turn SimpleTurtle_Turtle simple_turn].
    eexists. split; [reflexivity |]. cbn [penColor path].
    split; [lia |]. split; [congruence |].
    exists (segs ++ new). split; [rewrite Hpath1, Hpath, app_assoc; reflexivity |].
    split.
    + rewrite length_app, Hlen, Hlen1.
      replace (1 + i - 3)%nat with (S (i - 3)) by lia.
      rewrite seq_S, list_sum_app. simpl. lia.
    + apply Forall_app. split; [exact Hcol |].
      rewrite Hpen in Hcol1. exact Hcol1.
  - split; [lia |]. split; [reflexivity |].
    exists []. rewrite app_nil_r. repeat split. constructor.
  - exists t', segs. split; [exact Hrun |]. split; [exact Hpath |].
    split; [exact Hlen | exact Hcol].
Qed.

(** The whole artwork: 165 new segments, every one in a colour chosen
    at one of the outer steps 1 to 5. *)
Lemma createGeometricArtwork_path (t : SimpleTurtle) :
  exists t' segs,
    createGeometricArtwork t = Normal t' /\
    getPath t' = getPath t ++ segs /\
    List.length segs = 165%nat /\
    Forall (fun sg =>
              In (seg_color sg) ["indigo"; "crimson"; "olive"; "teal"]%string)
           segs.
Proof.
  unfold createGeometricArtwork, for_range, getPath.
  match goal with
  | |- context [for_loop 1 _ ?body t] =>
      destruct (for_loop_indexed body
        (fun c u => (1 <= c)%nat /\
           exists segs,
             path u = path t ++ segs /\
             List.length segs = (33 * (c - 1))%nat /\
             Forall (fun sg => exists c', (1 <= c' < c)%nat /\
                       seg_color sg =
                       nth (paletteIndex c') colorPalette "undefined"%string)
                    segs))
        with (count := 5%nat) (i := 1%nat) (s := t)
        as [t' [Hrun [_ [segs [Hpath [Hlen Hcol]]]]]]
  end.
  - intros c u [Hc [segs [Hpath [Hlen Hcol]]]].
    cbn [color SimpleTurtle_Turtle simple_color bind].
    match goal with
    | |- context [for_loop 3 _ _ ?u0] =>
        destruct (simple_layer u0 c) as [u1 [new [Hrun1 [Hpath1 [Hlen1 Hcol1]]]]]
    end.
    exists u1. split; [exact Hrun1 |]. split; [lia |].
    cbn [path penColor] in Hpath1, Hcol1.
    exists (segs ++ new).
    split; [rewrite Hpath1, Hpath, app_assoc; reflexivity |].
    split; [rewrite length_app, Hlen, Hlen1; lia |].
    apply Forall_app. split.
    + eapply Forall_impl; [| exact Hcol].
      intros sg [c' [Hc' Hsg]]. exists c'. split; [lia | exact Hsg].
    + eapply Forall_impl; [| exact Hcol1].
      intros sg Hsg. exists c. split; [lia | exact Hsg].
  - split; [lia |]. exists []. rewrite app_nil_r. repeat split. constructor.
  - exists t', segs. split; [exact Hrun |]. split; [exact Hpath |].
    split; [exact Hlen |].
    eapply Forall_impl; [| exact Hcol].
    intros sg [c' [Hc' Hsg]]. rewrite Hsg.
    assert (Hcases : c' = 1%nat \/ c' = 2%nat \/ c' = 3%nat \/ c' = 4%nat
                     \/ c' = 5%nat) by lia.
    destruct Hcases as [-> | [-> | [-> | [-> | ->]]]]; simpl; tauto.
Qed.

(** C7.  Two recording turtles that agree on position, heading, pen
    colour and path so far (empty for fresh ones) both complete
    [createGeometricArtwork] normally and end with identical paths, the
    initial path extended by the same 165 segments. *)
Theorem createGeometricArtwork_deterministic (t1 t2 : SimpleTurtle) :
  position t1 = position t2 ->
  heading t1 = heading t2 ->
  penColor t1 = penColor t2 ->
  getPath t1 = getPath t2 ->
  exists r1 r2 segs,
    createGeometricArtwork t1 = Normal r1 /\
    createGeometricArtwork t2 = Normal r2 /\
    getPath r1 = getPath r2 /\
    getPath r1 = getPath t1 ++ segs /\
    List.length segs = 165%nat.
Proof.
  intros Hpos Hhead Hpen Hpath.
  assert (Heq : t1 = t2).
  { destruct t1, t2. unfold getPath in Hpath. simpl in *. congruence. }
  subst t2.
  destruct (createGeometricArtwork_path t1) as [r [segs [Hr [Hp [Hl _]]]]].
  exists r, r, segs. split; [exact Hr |]. split; [exact Hr |].
  split; [reflexivity |]. split; [exact Hp | exact Hl].
Qed.

Lemma createGeometricArtwork_deterministic_witness :
  exists r1 r2 segs,
    createGeometricArtwork newSimpleTurtle = Normal r1 /\
    createGeometricArtwork
      (mkSimpleTurtle (mkPoint 0 0) 0 "black"%string []) = Normal r2 /\
    getPath r1 = getPath r2 /\
    getPath r1 = getPath newSimpleTurtle ++ segs /\
    List.length segs = 165%nat.
Proof.
  apply (createGeometricArtwork_deterministic newSimpleTurtle
           (mkSimpleTurtle (mkPoint 0 0) 0 "black"%string []));
    reflexivity.
Defined.

(** C9.  For the outer steps 1 to 5 the palette index [(c * 2) mod 8]
    is 2, 4, 6, 0, 2; on a turtle that logs the calls made on it the
    colours set, in order, are indigo, crimson, olive, teal, indigo, and
    coral, gold, navy and maroon are never set. *)
Theorem createGeometricArtwork_palette :
  map paletteIndex (seq 1 5) = [2; 4; 6; 0; 2]%nat /\
  exists log : CallLog,
    createGeometricArtwork ([] : CallLog) = Normal log /\
    colorsSet log = ["indigo"; "crimson"; "olive"; "teal"; "indigo"]%string /\
    Forall (fun c => ~ In c (colorsSet log))
      ["coral"; "gold"; "navy"; "maroon"]%string.
Proof.
  split; [reflexivity |].
  destruct (createGeometricArtwork_colors []) as [log [Hrun Hcols]].
  exists log. split; [exact Hrun |].
  simpl in Hcols. split; [exact Hcols |].
  rewrite Hcols.
  repeat constructor; simpl; intros Hin;
    repeat (destruct Hin as [Hin | Hin]; [discriminate |]); exact Hin.
Qed.

(** * Further properties of the code *)

(** ** Chord length: accuracy, sign and monotonicity *)

Lemma round_monotone (v w : R) : v <= w -> Math.round v <= Math.round w.
Proof.
  intros Hvw. unfold Math.round. apply IZR_le, Zfloor_le. lra.
Qed.

Lemma half_angle_sin_nonneg (a : R) :
  0 <= a <= 360 -> 0 <= sin (a / 2 * PI / 180).
Proof.
  intros [Hlo Hhi]. pose proof PI_RGT_0 as Hpi.
  apply sin_ge_0.
  - apply Rmult_le_pos; [| lra]. apply Rmult_le_pos; lra.
  - replace PI with (360 / 2 * PI / 180) at 2 by lra.
    apply Rmult_le_compat_r; [lra |].
    apply Rmult_le_compat_r; [lra |]. lra.
Qed.

(** X1.  The value returned differs from the exact chord
    [2 r sin(a/2)] by at most half a unit of the sixth decimal. *)
Theorem chord_rounding_error (r a : R) :
  Rabs (calculateChordLength r a - 2 * r * sin (radians_of_degrees (a / 2)))
  <= / 2000000.
Proof.
  unfold calculateChordLength, radians_of_degrees.
  set (v := 2 * r * sin (a / 2 * PI / 180)).
  pose proof (round_bounds (v * 1000000)) as [Hlo Hhi].
  apply Rabs_le. split; lra.
Qed.

Lemma chord_bounds (r r' a : R) :
  0 <= r -> r <= r' -> 0 <= a <= 360 ->
  0 <= calculateChordLength r a /\
  calculateChordLength r a <= calculateChordLength r 180 /\
  calculateChordLength r a <= calculateChordLength r' a.
Proof.
  intros Hr Hrr Ha. pose proof (half_angle_sin_nonneg a Ha) as Hsin.
  pose proof (SIN_bound (a / 2 * PI / 180)) as [_ Hle1].
  rewrite chord_straight_angle.
  unfold calculateChordLength, round6.
  set (sn := sin (a / 2 * PI / 180)) in *.
  assert (H0 : 0 <= 2 * r * sn * 1000000).
  { apply Rmult_le_pos; [| lra]. apply Rmult_le_pos; lra. }
  assert (H1 : 2 * r * sn * 1000000 <= 2 * r * 1000000).
  { apply Rmult_le_compat_r; [lra |].
    rewrite <- (Rmult_1_r (2 * r)) at 2.
    apply Rmult_le_compat_l; lra. }
  assert (H2 : 2 * r * sn * 1000000 <= 2 * r' * sn * 1000000).
  { apply Rmult_le_compat_r; [lra |].
    apply Rmult_le_compat_r; [exact Hsin | lra]. }
  apply round_monotone in H0, H1, H2.
  replace (Math.round 0) with 0 in H0 by (symmetry; exact (round_IZR 0)).
  split; [| split]; lra.
Qed.



(** X3.  For a radius [r >= 0] and an angle between -360 and 0 degrees
    the chord length is never positive. *)
Theorem chord_negative_angle (r a : R) :
  0 <= r -> -360 <= a <= 0 -> calculateChordLength r a <= 0.
Proof.
  intros Hr Ha.
  assert (Hsin : 0 <= sin (- a / 2 * PI / 180))
    by (apply half_angle_sin_nonneg; lra).
  replace (- a / 2 * PI / 180) with (- (a / 2 * PI / 180)) in Hsin by lra.
  rewrite sin_neg in Hsin.
  unfold calculateChordLength.
  set (sn := sin (a / 2 * PI / 180)) in *.
  assert (H0 : 2 * r * sn * 1000000 <= 0).
  { assert (Hp : 0 <= 2 * r * (- sn) * 1000000).
    { apply Rmult_le_pos; [| lra]. apply Rmult_le_pos; lra. }
    lra. }
  apply round_monotone in H0.
  replace (Math.round 0) with 0 in H0 by (symmetry; exact (round_IZR 0)).
  lra.
Qed.

Lemma chord_negative_angle_witness :
  0 <= 1 /\ -360 <= -90 <= 0 /\ calculateChordLength 1 (-90) <= 0.
Proof.
  split; [lra |]. split; [lra |].
  apply (chord_negative_angle 1 (-90)); lra.
Defined.

(** ** Distance: separation and coordinate bounds *)

(** X4.  In exact real arithmetic two points are at distance 0 exactly
    when they are equal. *)
Theorem computeDistance_zero_iff (a b : Point) :
  computeDistance a b = 0 <-> a = b.
Proof.
  split.
  - intros Hd. pose proof (computeDistance_sqr a b) as Hsq.
    rewrite Hd in Hsq.
    pose proof (Rle_0_sqr (x a - x b)) as Hx.
    pose proof (Rle_0_sqr (y a - y b)) as Hy.
    unfold Rsqr in Hx, Hy.
    assert (Hx0 : (x a - x b) * (x a - x b) = 0) by lra.
    assert (Hy0 : (y a - y b) * (y a - y b) = 0) by lra.
    apply Rmult_integral in Hx0. apply Rmult_integral in Hy0.
    destruct a as [xa ya], b as [xb yb]. simpl in *.
    f_equal; lra.
  - intros ->. apply computeDistance_refl.
Qed.

(** X5.  In exact real arithmetic the distance is at least the absolute
    difference in each coordinate and at most the sum of the two. *)
Theorem computeDistance_coordinate_bounds (a b : Point) :
  Rabs (x a - x b) <= computeDistance a b /\
  Rabs (y a - y b) <= computeDistance a b /\
  computeDistance a b <= Rabs (x a - x b) + Rabs (y a - y b).
Proof.
  pose proof (computeDistance_nonneg a b) as Hd.
  pose proof (computeDistance_sqr a b) as Hsq.
  set (d := computeDistance a b) in *.
  set (u := x a - x b) in *. set (v := y a - y b) in *.
  pose proof (Rabs_pos u) as Hu. pose proof (Rabs_pos v) as Hv.
  assert (Huu : Rabs u * Rabs u = u * u).
  { unfold Rabs. destruct (Rcase_abs u); ring. }
  assert (Hvv : Rabs v * Rabs v = v * v).
  { unfold Rabs. destruct (Rcase_abs v); ring. }
  pose proof (Rle_0_sqr u) as Hu2. pose proof (Rle_0_sqr v) as Hv2.
  unfold Rsqr in Hu2, Hv2.
  split; [| split].
  - destruct (Rle_or_lt (Rabs u) d) as [H | H]; [exact H | exfalso].
    assert (d * d < Rabs u * Rabs u)
      by (apply Rmult_le_0_lt_compat; lra). lra.
  - destruct (Rle_or_lt (Rabs v) d) as [H | H]; [exact H | exfalso].
    assert (d * d < Rabs v * Rabs v)
      by (apply Rmult_le_0_lt_compat; lra). lra.
  - destruct (Rle_or_lt d (Rabs u + Rabs v)) as [H | H]; [exact H | exfalso].
    assert ((Rabs u + Rabs v) * (Rabs u + Rabs v) < d * d)
      by (apply Rmult_le_0_lt_compat; lra).
    assert (0 <= Rabs u * Rabs v) by (apply Rmult_le_pos; assumption).
    lra.
Qed.

(** ** Loop counts that are not positive integers *)

Lemma trip_count_nonpos (b : R) : b <= 0 -> trip_count b = 0%nat.
Proof.
  intros Hb. unfold trip_count. pose proof (Zceil_bound b) as [Hlo _].
  assert (Hz : (Zceil b < 1)%Z) by (apply lt_IZR; lra).
  destruct (Zceil b); try reflexivity. lia.
Qed.

Lemma trip_count_pos (b : R) :
  0 < b -> (1 <= trip_count b)%nat /\ b <= INR (trip_count b) < b + 1.
Proof.
  intros Hb. unfold trip_count. pose proof (Zceil_bound b) as [Hlo Hhi].
  assert (Hz : (0 < Zceil b)%Z) by (apply lt_IZR; lra).
  rewrite INR_IZR_INZ, Z2Nat.id by lia.
  split; [lia | lra].
Qed.

(** X6.  With a count that is zero or negative both generators return
    at once, handing back the turtle untouched, whatever the turtle. *)
Theorem nonpositive_count_noop {T : Type} `{Turtle T} (t : T) (s r b : R) :
  b <= 0 ->
  drawPolygon t s b = Normal t /\ drawSpiralingCircle t r b = Normal t.
Proof.
  intros Hb. unfold drawPolygon, drawSpiralingCircle.
  rewrite (trip_count_nonpos b Hb). split; reflexivity.
Qed.

Lemma nonpositive_count_noop_witness :
  -3 <= 0 /\
  drawPolygon newSimpleTurtle 10 (-3) = Normal newSimpleTurtle /\
  drawSpiralingCircle newSimpleTurtle 10 (-3) = Normal newSimpleTurtle.
Proof.
  split; [lra |]. apply (nonpositive_count_noop newSimpleTurtle 10 10 (-3)).
  lra.
Defined.

(** X7.  In exact real arithmetic, with a positive count [b] that need
    not be an integer, [drawPolygon] on the recording turtle draws
    [ceil b] sides, each followed by a turn of [360 / b]; the heading
    advances by [ceil b * 360 / b], which is a full turn exactly when
    [b] is an integer. *)
Theorem drawPolygon_fractional_count (t : SimpleTurtle) (s b : R) :
  0 < b ->
  exists t' segs,
    drawPolygon t s b = Normal t' /\
    getPath t' = getPath t ++ segs /\
    List.length segs = trip_count b /\
    b <= INR (trip_count b) < b + 1 /\
    getHeading t' = getHeading t + INR (trip_count b) * (360 / b) /\
    (getHeading t' = getHeading t + 360 <-> INR (trip_count b) = b).
Proof.
  intros Hb. destruct (trip_count_pos b Hb) as [_ Hbound].
  assert (Hrep : drawPolygon t s b
                 = repeat_step (trip_count b) (polygon_step s (360 / b)) t)
    by apply (for_loop_repeat_step (polygon_step s (360 / b))).
  rewrite Hrep.
  destruct (simple_polygon_steps (trip_count b) s (360 / b) t)
    as [t' [segs [Hrun [Hpath [Hlen [_ [_ [Hhead _]]]]]]]].
  exists t', segs. split; [exact Hrun |]. split; [exact Hpath |].
  split; [exact Hlen |]. split; [exact Hbound |].
  split; [exact Hhead |]. simpl getHeading. rewrite Hhead.
  set (c := INR (trip_count b)) in *.
  split; intros Heq.
  - assert (Hc : c * (360 / b) = 360) by lra.
    assert (Hcb : c * (360 / b) * b = 360 * b) by (rewrite Hc; reflexivity).
    replace (c * (360 / b) * b) with (360 * c) in Hcb by (field; lra).
    lra.
  - rewrite Heq. field_simplify; lra.
Qed.

Lemma drawPolygon_fractional_count_witness :
  0 < 5 / 2 /\
  exists t' segs,
    drawPolygon newSimpleTurtle 10 (5 / 2) = Normal t' /\
    getPath t' = getPath newSimpleTurtle ++ segs /\
    List.length segs = trip_count (5 / 2) /\
    5 / 2 <= INR (trip_count (5 / 2)) < 5 / 2 + 1 /\
    getHeading t' = getHeading newSimpleTurtle
                    + INR (trip_count (5 / 2)) * (360 / (5 / 2)) /\
    (getHeading t' = getHeading newSimpleTurtle + 360
     <-> INR (trip_count (5 / 2)) = 5 / 2).
Proof.
  split; [lra |].
  apply (drawPolygon_fractional_count newSimpleTurtle 10 (5 / 2)). lra.
Defined.

(** ** The polygon closes *)

Lemma sin_half_step (a d : R) :
  sin (a + d / 2) - sin (a - d / 2) = 2 * sin (d / 2) * cos a.
Proof. rewrite sin_plus, sin_minus. ring. Qed.

Lemma cos_half_step (a d : R) :
  cos (a - d / 2) - cos (a + d / 2) = 2 * sin (d / 2) * sin a.
Proof. rewrite cos_plus, cos_minus. ring. Qed.

(** Where a run of polygon steps takes the recording turtle: the sums of
    cosines and sines telescope. *)
Lemma simple_polygon_position (s angle : R) (n : nat) :
  forall t : SimpleTurtle,
  exists t',
    repeat_step n (polygon_step s angle) t = Normal t' /\
    2 * sin (angle * PI / 180 / 2) * (x (position t') - x (position t)) =
      s * (sin (heading t * PI / 180 + (INR n - / 2) * (angle * PI / 180))
           - sin (heading t * PI / 180 - angle * PI / 180 / 2)) /\
    2 * sin (angle * PI / 180 / 2) * (y (position t') - y (position t)) =
      s * (cos (heading t * PI / 180 - angle * PI / 180 / 2)
           - cos (heading t * PI / 180 + (INR n - / 2) * (angle * PI / 180))).
Proof.
  set (d := angle * PI / 180).
  induction n as [| n IH]; intros t.
  - exists t. split; [reflexivity |].
    replace (heading t * PI / 180 + (INR 0 - / 2) * d)
      with (heading t * PI / 180 - d / 2) by (simpl; lra).
    split; ring.
  - rewrite S_INR. cbn [repeat_step]. unfold polygon_step at 1.
    cbn [forward turn SimpleTurtle_Turtle simple_forward simple_turn bind
         position heading penColor path].
    match goal with
    | |- context [repeat_step n _ ?u] =>
        destruct (IH u) as [t' [Hrun [Hx Hy]]]
    end.
    cbn [position heading x y] in Hx, Hy.
    set (a := heading t * PI / 180) in *.
    replace ((heading t + angle) * PI / 180) with (a + d) in Hx, Hy
      by (unfold a, d; lra).
    replace (a + d + (INR n - / 2) * d) with (a + (INR n + 1 - / 2) * d)
      in Hx, Hy by lra.
    replace (a + d - d / 2) with (a + d / 2) in Hx, Hy by lra.
    pose proof (sin_half_step a d) as Hs.
    pose proof (cos_half_step a d) as Hc.
    exists t'. split; [exact Hrun |]. split.
    + replace (x (position t') - x (position t))
        with ((x (position t') - (x (position t) + s * cos a)) + s * cos a)
        by ring.
      rewrite Rmult_plus_distr_l, Hx.
      replace (2 * sin (d / 2) * (s * cos a))
        with (s * (2 * sin (d / 2) * cos a)) by ring.
      rewrite <- Hs. ring.
    + replace (y (position t') - y (position t))
        with ((y (position t') - (y (position t) + s * sin a)) + s * sin a)
        by ring.
      rewrite Rmult_plus_distr_l, Hy.
      replace (2 * sin (d / 2) * (s * sin a))
        with (s * (2 * sin (d / 2) * sin a)) by ring.
      rewrite <- Hc. ring.
Qed.

Lemma simple_polygon_closed (t : SimpleTurtle) (s : R) (n : nat) :
  (2 <= n)%nat ->
  exists t',
    drawPolygon t s (INR n) = Normal t' /\ position t' = position t.
Proof.
  intros Hn. rewrite drawPolygon_repeat.
  destruct (simple_polygon_position s (360 / INR n) n t)
    as [t' [Hrun [Hx Hy]]].
  exists t'. split; [exact Hrun |].
  assert (Hpos : 2 <= INR n) by (apply (le_INR 2); exact Hn).
  pose proof PI_RGT_0 as Hpi.
  set (d := 360 / INR n * PI / 180) in *.
  set (a := heading t * PI / 180) in *.
  assert (Hd : d = 2 * PI / INR n) by (unfold d; field; lra).
  assert (Hsin : 0 < sin (d / 2)).
  { assert (Hlt : / INR n < 1).
    { rewrite <- Rinv_1. apply Rinv_lt_contravar; lra. }
    assert (Hgt : 0 < / INR n) by (apply Rinv_0_lt_compat; lra).
    replace (d / 2) with (PI * / INR n) by (rewrite Hd; field; lra).
    apply sin_gt_0.
    - apply Rmult_lt_0_compat; lra.
    - rewrite <- (Rmult_1_r PI) at 2. apply Rmult_lt_compat_l; lra. }
  assert (Harg : a + (INR n - / 2) * d = a - d / 2 + 2 * INR 1 * PI).
  { rewrite Hd. simpl INR. field. lra. }
  rewrite Harg, sin_period, Rminus_diag, Rmult_0_r in Hx.
  rewrite Harg, cos_period, Rminus_diag, Rmult_0_r in Hy.
  apply Rmult_integral in Hx. apply Rmult_integral in Hy.
  destruct (position t') as [x' y'], (position t) as [x0 y0].
  cbn [x y] in Hx, Hy. f_equal.
  - destruct Hx as [Hx | Hx]; lra.
  - destruct Hy as [Hy | Hy]; lra.
Qed.

(** X8.  In exact real arithmetic a polygon of [n >= 2] sides is
    closed: on the recording turtle [drawPolygon] ends at the position
    it started from, for every side length and every initial position
    and heading. *)
Theorem drawPolygon_closes (t : SimpleTurtle) (s : R) (n : nat) :
  (2 <= n)%nat ->
  exists t',
    drawPolygon t s (INR n) = Normal t' /\ position t' = position t.
Proof.
  intros Hn. exact (simple_polygon_closed t s n Hn).
Qed.

Lemma drawPolygon_closes_witness :
  (2 <= 5)%nat /\
  exists t',
    drawPolygon newSimpleTurtle 10 (INR 5) = Normal t' /\
    position t' = position newSimpleTurtle.
Proof.
  split; [lia |]. apply (drawPolygon_closes newSimpleTurtle 10 5). lia.
Defined.

(** ** The spiral grows *)

Lemma full_turn_fraction (n : nat) : (1 <= n)%nat -> 0 <= 360 / INR n <= 360.
Proof.
  intros Hn. assert (Hpos : 1 <= INR n) by (apply (le_INR 1); exact Hn).
  assert (Hinv : 0 < / INR n <= 1).
  { split; [apply Rinv_0_lt_compat; lra |].
    rewrite <- Rinv_1. apply Rinv_le_contravar; lra. }
  unfold Rdiv. split.
  - apply Rmult_le_pos; lra.
  - rewrite <- (Rmult_1_r 360) at 2. apply Rmult_le_compat_l; lra.
Qed.

Lemma growth_step (r : R) (k : nat) : 0 <= r ->
  0 <= r * 1.05 ^ k /\ r * 1.05 ^ k <= r * 1.05 ^ S k.
Proof.
  intros Hr. assert (Hp : 0 < 1.05 ^ k) by (apply pow_lt; lra).
  assert (H0 : 0 <= r * 1.05 ^ k) by (apply Rmult_le_pos; lra).
  split; [exact H0 |]. simpl pow.
  replace (r * (1.05 * 1.05 ^ k)) with (r * 1.05 ^ k * 1.05) by ring.
  lra.
Qed.

(** X9.  In exact real arithmetic, for a radius [r >= 0] and an integer
    [n >= 1] the segments the spiral records on the recording turtle
    have exactly the chord lengths of the successive radii
    [r * 1.05^k], and these never decrease from one step to the next. *)
Theorem drawSpiralingCircle_grows (t : SimpleTurtle) (r : R) (n : nat) :
  0 <= r -> (1 <= n)%nat ->
  (exists t' segs,
     drawSpiralingCircle t r (INR n) = Normal t' /\
     getPath t' = getPath t ++ segs /\
     map segment_length segs =
       map (fun k => calculateChordLength (r * 1.05 ^ k) (360 / INR n))
           (seq 0 n)) /\
  forall k : nat,
    calculateChordLength (r * 1.05 ^ k) (360 / INR n)
    <= calculateChordLength (r * 1.05 ^ S k) (360 / INR n).
Proof.
  intros Hr Hn. pose proof (full_turn_fraction n Hn) as Hang. split.
  - rewrite drawSpiralingCircle_steps.
    destruct (simple_spiral_steps r (360 / INR n) n 0 t)
      as [t' [segs [Hrun [Hpath [Hlens _]]]]].
    exists t', segs. split; [exact Hrun |]. split; [exact Hpath |].
    rewrite Hlens. apply map_ext. intros k.
    apply Rabs_pos_eq.
    destruct (growth_step r k Hr) as [H0 H1].
    apply (chord_bounds _ _ _ H0 H1 Hang).
  - intros k. destruct (growth_step r k Hr) as [H0 H1].
    apply (chord_bounds _ _ _ H0 H1 Hang).
Qed.

Lemma drawSpiralingCircle_grows_witness :
  0 <= 10 /\ (1 <= 4)%nat /\
  (exists t' segs,
     drawSpiralingCircle newSimpleTurtle 10 (INR 4) = Normal t' /\
     getPath t' = getPath newSimpleTurtle ++ segs /\
     map segment_length segs =
       map (fun k => calculateChordLength (10 * 1.05 ^ k) (360 / INR 4))
           (seq 0 4)) /\
  forall k : nat,
    calculateChordLength (10 * 1.05 ^ k) (360 / INR 4)
    <= calculateChordLength (10 * 1.05 ^ S k) (360 / INR 4).
Proof.
  split; [lra |]. split; [lia |].
  apply (drawSpiralingCircle_grows newSimpleTurtle 10 4); [lra | lia].
Defined.

(** ** The planner follows the waypoints *)

Lemma atan_polar (a b : R) :
  a <> 0 ->
  sqrt (a * a + b * b) * cos (atan (b / a)) = Rabs a /\
  sqrt (a * a + b * b) * sin (atan (b / a)) = Rabs a * (b / a).
Proof.
  intros Ha. set (z := b / a).
  assert (Hq2 : 0 < 1 + z²).
  { pose proof (Rle_0_sqr z). lra. }
  pose proof (sqrt_lt_R0 _ Hq2) as Hq.
  pose proof (sqrt_def (1 + z²) (Rlt_le _ _ Hq2)) as Hqq.
  set (q := sqrt (1 + z²)) in *.
  assert (Habs : Rabs a * Rabs a = a * a).
  { unfold Rabs. destruct (Rcase_abs a); ring. }
  assert (Hd : sqrt (a * a + b * b) = Rabs a * q).
  { apply sqrt_lem_1.
    - pose proof (Rle_0_sqr a) as H1. pose proof (Rle_0_sqr b) as H2.
      unfold Rsqr in H1, H2. lra.
    - apply Rmult_le_pos; [apply Rabs_pos | lra].
    - replace (Rabs a * q * (Rabs a * q)) with (Rabs a * Rabs a * (q * q))
        by ring.
      rewrite Habs, Hqq. unfold z, Rsqr. field. exact Ha. }
  rewrite Hd, cos_atan, sin_atan. fold q. split; field; lra.
Qed.

(** The polar form of a displacement: length times the cosine and sine
    of its [atan2] angle give back the displacement. *)
Lemma atan2_polar (a b : R) :
  sqrt (a * a + b * b) * cos (Math.atan2 b a) = a /\
  sqrt (a * a + b * b) * sin (Math.atan2 b a) = b.
Proof.
  unfold Math.atan2.
  destruct (Rlt_dec 0 a) as [Hpos | Hnpos].
  - destruct (atan_polar a b) as [Hc Hs]; [lra |].
    rewrite Hc, Hs, Rabs_pos_eq by lra. split; [reflexivity | field; lra].
  - destruct (Rlt_dec a 0) as [Hneg | Hnneg].
    + destruct (atan_polar a b) as [Hc Hs]; [lra |].
      rewrite Rabs_left in Hc, Hs by exact Hneg.
      assert (Hba : - a * (b / a) = - b) by (field; lra).
      rewrite Hba in Hs.
      set (d := sqrt (a * a + b * b)) in *.
      set (cs := cos (atan (b / a))) in *.
      set (sn := sin (atan (b / a))) in *.
      destruct (Rle_dec 0 b) as [Hb | Hb].
      * rewrite neg_cos, neg_sin. fold cs sn. split; lra.
      * rewrite cos_minus, sin_minus, cos_PI, sin_PI. fold cs sn.
        split; lra.
    + assert (Ha : a = 0) by lra. subst a.
      destruct (Rlt_dec 0 b) as [Hb | Hb].
      * rewrite cos_PI2, sin_PI2.
        replace (0 * 0 + b * b) with (b * b) by ring.
        rewrite sqrt_square by lra. lra.
      * destruct (Rlt_dec b 0) as [Hb' | Hb'].
        -- rewrite cos_neg, sin_neg, cos_PI2, sin_PI2.
           replace (0 * 0 + b * b) with ((- b) * (- b)) by ring.
           rewrite sqrt_square by lra. lra.
        -- assert (Hb0 : b = 0) by lra. subst b.
           replace (0 * 0 + 0 * 0) with 0 by ring.
           rewrite sqrt_0. lra.
Qed.

(** One leg on the recording turtle: turning by the bearing minus the
    heading and moving by the distance displaces the turtle by exactly
    [next - current] and leaves it heading along the bearing. *)
Lemma simple_leg (t : SimpleTurtle) (current next : Point) :
  let h1 := heading t + (bearing current next - heading t) in
  let d := computeDistance current next in
  h1 = bearing current next /\
  x (position t) + d * cos (h1 * PI / 180)
    = x (position t) + (x next - x current) /\
  y (position t) + d * sin (h1 * PI / 180)
    = y (position t) + (y next - y current).
Proof.
  intros h1 d. pose proof PI_RGT_0 as Hpi.
  assert (Hh : h1 = bearing current next) by (unfold h1; ring).
  split; [exact Hh |]. rewrite Hh. unfold bearing, d, computeDistance.
  set (dx := x next - x current). set (dy := y next - y current).
  replace (Math.atan2 dy dx * 180 / PI * PI / 180) with (Math.atan2 dy dx)
    by (field; lra).
  replace ((x current - x next) * (x current - x next) +
           (y current - y next) * (y current - y next))
    with (dx * dx + dy * dy) by (unfold dx, dy; ring).
  destruct (atan2_polar dx dy) as [Hc Hs]. rewrite Hc, Hs. split; reflexivity.
Qed.

Lemma simple_travel (rest : list Point) :
  forall (t : SimpleTurtle) (current : Point) (emitted : list string),
  exists t' instrs,
    travel t current rest emitted = Normal (t', instrs) /\
    path t' = path t ++ legs_from (position t) current rest (penColor t) /\
    position t' = end_of_legs (position t) current rest /\
    heading t' = heading_after (heading t) current rest /\
    penColor t' = penColor t.
Proof.
  induction rest as [| next rest IH]; intros t current emitted.
  - exists t, emitted. cbn. rewrite app_nil_r. repeat split; reflexivity.
  - cbn [travel].
    cbn [turn forward getHeading SimpleTurtle_Turtle simple_turn
         simple_forward bind position heading penColor path].
    destruct (simple_leg t current next) as [Hh [Hx Hy]].
    cbv zeta in Hh, Hx, Hy. rewrite Hx, Hy, Hh.
    match goal with
    | |- context [travel ?u next rest ?em] =>
        destruct (IH u next em) as [t' [instrs [Hrun [Hpath [Hpos [Hhd Hpen]]]]]]
    end.
    cbn [position heading penColor path] in Hpath, Hpos, Hhd, Hpen.
    exists t', instrs. split; [exact Hrun |].
    split; [rewrite Hpath, <- app_assoc; reflexivity |].
    split; [exact Hpos |]. split; [exact Hhd | exact Hpen].
Qed.

Lemma last_cons_default (l : list Point) :
  forall p d d', last (p :: l) d = last (p :: l) d'.
Proof.
  induction l as [| q l IH]; intros p d d'; [reflexivity |].
  change (last (q :: l) d = last (q :: l) d'). apply IH.
Qed.

Lemma legs_on_track (current : Point) (rest : list Point) (c : Color) :
  legs_from current current rest c = waypoint_segments current rest c /\
  end_of_legs current current rest = last rest current.
Proof.
  revert current. induction rest as [| next rest IH]; intros current.
  - split; reflexivity.
  - cbn [legs_from end_of_legs waypoint_segments].
    replace (mkPoint (x current + (x next - x current))
                     (y current + (y next - y current))) with next
      by (destruct next as [xn yn]; cbn [x y]; f_equal; ring).
    destruct (IH next) as [Hlegs Hend]. rewrite Hlegs, Hend.
    split; [reflexivity |].
    destruct rest as [| p rest']; [reflexivity |].
    change (last (p :: rest') next = last (p :: rest') current).
    apply last_cons_default.
Qed.

(** X10.  In exact real arithmetic, on the recording turtle
    [plotOptimalPath] returns normally, having drawn one segment per
    pair of consecutive waypoints, each the displacement between the
    two waypoints applied from where the turtle stands; it ends heading
    along the bearing of the last pair and keeps its pen colour. *)
Theorem plotOptimalPath_displacements (t : SimpleTurtle) (p0 : Point)
    (rest : list Point) :
  exists t' instrs,
    plotOptimalPath t (p0 :: rest) = Normal (t', instrs) /\
    getPath t' = getPath t ++ legs_from (position t) p0 rest (penColor t) /\
    position t' = end_of_legs (position t) p0 rest /\
    getHeading t' = heading_after (getHeading t) p0 rest /\
    penColor t' = penColor t.
Proof.
  rewrite plotOptimalPath_travel. apply simple_travel.
Qed.

(** X11.  In exact real arithmetic a recording turtle that stands on
    the first waypoint draws exactly the segments joining consecutive
    waypoints and ends on the last waypoint. *)
Theorem plotOptimalPath_on_track (t : SimpleTurtle) (p0 : Point)
    (rest : list Point) :
  position t = p0 ->
  exists t' instrs,
    plotOptimalPath t (p0 :: rest) = Normal (t', instrs) /\
    getPath t' = getPath t ++ waypoint_segments p0 rest (penColor t) /\
    position t' = last rest p0.
Proof.
  intros Hstart. rewrite plotOptimalPath_travel.
  destruct (simple_travel rest t p0 [])
    as [t' [instrs [Hrun [Hpath [Hpos _]]]]].
  rewrite Hstart in Hpath, Hpos.
  destruct (legs_on_track p0 rest (penColor t)) as [Hlegs Hend].
  rewrite Hlegs in Hpath. rewrite Hend in Hpos.
  exists t', instrs. split; [exact Hrun |]. split; [exact Hpath | exact Hpos].
Qed.

Lemma plotOptimalPath_on_track_witness :
  position newSimpleTurtle = mkPoint 0 0 /\
  exists t' instrs,
    plotOptimalPath newSimpleTurtle [mkPoint 0 0; mkPoint 3 4; mkPoint 3 0]
      = Normal (t', instrs) /\
    getPath t' = getPath newSimpleTurtle ++
      waypoint_segments (mkPoint 0 0) [mkPoint 3 4; mkPoint 3 0]
        (penColor newSimpleTurtle) /\
    position t' = last [mkPoint 3 4; mkPoint 3 0] (mkPoint 0 0).
Proof.
  split; [reflexivity |].
  apply (plotOptimalPath_on_track newSimpleTurtle (mkPoint 0 0)
           [mkPoint 3 4; mkPoint 3 0]).
  reflexivity.
Defined.

(** ** A repeated waypoint *)

Lemma bearing_same_point (p : Point) : bearing p p = 0.
Proof.
  unfold bearing. replace (y p - y p) with 0 by ring.
  replace (x p - x p) with 0 by ring.
  unfold Math.atan2.
  destruct (Rlt_dec 0 0) as [Hl | _]; [lra |]. unfold Rdiv. ring.
Qed.

Lemma toFixed_0 : NumberPrototype.toFixed 0 2 = "0.00"%string.
Proof.
  unfold NumberPrototype.toFixed.
  destruct (Rlt_dec 0 0) as [Hl | _]; [lra |].
  replace (Zfloor (0 * 10 ^ 2 + / 2)) with 0%Z.
  - reflexivity.
  - symmetry. apply Zfloor_eq. simpl. lra.
Qed.

(** X12.  When a waypoint is repeated the bearing is taken as 0: the
    turtle is turned by minus its heading, moved by 0, and the log reads
    "Move 0.00 units"; this holds for every turtle. *)
Theorem plotOptimalPath_repeated_point {T : Type} `{Turtle T} (t : T)
    (p : Point) :
  plotOptimalPath t [p; p] =
    (let turnAngle := 0 - getHeading t in
     t1 <- turn t turnAngle ;;
     t2 <- forward t1 0 ;;
     Normal (t2, [("Turn " ++ NumberPrototype.toFixed turnAngle 2
                     ++ " degrees")%string;
                  "Move 0.00 units"%string])).
Proof.
  rewrite plotOptimalPath_travel. cbn [travel].
  rewrite bearing_same_point, computeDistance_refl, toFixed_0.
  reflexivity.
Qed.

(** ** The layers of the artwork *)

Lemma map_constant {A B : Type} (f : A -> B) (v : B) (l : list A) :
  Forall (fun a => f a = v) l -> map f l = repeat v (List.length l).
Proof.
  induction 1 as [| a l Ha _ IH]; [reflexivity |].
  simpl. rewrite Ha, IH. reflexivity.
Qed.

Lemma simple_drawPolygon_sides (t : SimpleTurtle) (s : R) (n : nat) :
  exists t' segs,
    drawPolygon t s (INR n) = Normal t' /\
    path t' = path t ++ segs /\
    map seg_color segs = repeat (penColor t) n /\
    map segment_length segs = repeat (Rabs s) n /\
    penColor t' = penColor t.
Proof.
  rewrite drawPolygon_repeat.
  destruct (simple_polygon_steps n s (360 / INR n) t)
    as [t' [segs [Hrun [Hpath [Hlen [Hseg [Hcol [_ Hpen]]]]]]]].
  exists t', segs. split; [exact Hrun |]. split; [exact Hpath |].
  apply map_constant in Hseg. apply map_constant in Hcol.
  rewrite Hlen in Hseg, Hcol.
  split; [exact Hcol |]. split; [exact Hseg | exact Hpen].
Qed.

(** One layer: polygons of 3 to 8 sides, 33 sides in all, every one in
    the pen colour and of the same length. *)
Lemma simple_layer_sides (t : SimpleTurtle) (complexity : nat) :
  exists t' segs,
    for_loop 3 6
      (fun i turtle =>
         turtle <- drawPolygon turtle (50 / INR complexity) (INR i) ;;
         turn turtle (360 / (INR i * INR complexity)))
      t = Normal t' /\
    path t' = path t ++ segs /\
    map seg_color segs = repeat (penColor t) 33 /\
    map segment_length segs = repeat (Rabs (50 / INR complexity)) 33 /\
    penColor t' = penColor t.
Proof.
  set (len := Rabs (50 / INR complexity)).
  match goal with
  | |- context [for_loop 3 6 ?body t] =>
      destruct (for_loop_indexed body
        (fun i u => (3 <= i)%nat /\ penColor u = penColor t /\
           exists segs,
             path u = path t ++ segs /\
             map seg_color segs
               = repeat (penColor t) (list_sum (seq 3 (i - 3))) /\
             map segment_length segs
               = repeat len (list_sum (seq 3 (i - 3)))))
        with (count := 6%nat) (i := 3%nat) (s := t)
        as [t' [Hrun [_ [Hpen [segs [Hpath [Hcol Hlen]]]]]]]
  end.
  - intros i u [Hi [Hpen [segs [Hpath [Hcol Hlen]]]]].
    destruct (simple_drawPolygon_sides u (50 / INR complexity) i)
      as [u1 [new [Hrun1 [Hpath1 [Hcol1 [Hlen1 Hpen1]]]]]].
    rewrite Hrun1. cbn [bind turn SimpleTurtle_Turtle simple_turn].
    eexists. split; [reflexivity |]. cbn [penColor path].
    split; [lia |]. split; [congruence |].
    exists (segs ++ new).
    split; [rewrite Hpath1, Hpath, app_assoc; reflexivity |].
    replace (1 + i - 3)%nat with (S (i - 3)) by lia.
    rewrite seq_S, list_sum_app.
    replace (list_sum [(3 + (i - 3))%nat]) with i by (simpl; lia).
    rewrite !map_app, !repeat_app, Hcol, Hlen, Hcol1, Hlen1, Hpen.
    split; reflexivity.
  - split; [lia |]. split; [reflexivity |].
    exists []. rewrite app_nil_r. repeat split.
  - exists t', segs. split; [exact Hrun |]. split; [exact Hpath |].
    split; [exact Hcol |]. split; [exact Hlen | exact Hpen].
Qed.

Lemma simple_artwork_layers (t : SimpleTurtle) :
  exists t' segs,
    createGeometricArtwork t = Normal t' /\
    getPath t' = getPath t ++ segs /\
    map seg_color segs =
      repeat "indigo"%string 33 ++ repeat "crimson"%string 33
      ++ repeat "olive"%string 33 ++ repeat "teal"%string 33
      ++ repeat "indigo"%string 33 /\
    map segment_length segs =
      flat_map (fun c => repeat (50 / INR c) 33) (seq 1 5) /\
    penColor t' = "indigo"%string.
Proof.
  unfold createGeometricArtwork, for_range, getPath.
  match goal with
  | |- context [for_loop 1 _ ?body t] =>
      destruct (for_loop_indexed body
        (fun c u => (1 <= c)%nat /\
           ((2 <= c)%nat -> penColor u = paletteColor (c - 1)) /\
           exists segs,
             path u = path t ++ segs /\
             map seg_color segs
               = flat_map (fun k => repeat (paletteColor k) 33)
                          (seq 1 (c - 1)) /\
             map segment_length segs
               = flat_map (fun k => repeat (50 / INR k) 33)
                          (seq 1 (c - 1))))
        with (count := 5%nat) (i := 1%nat) (s := t)
        as [t' [Hrun [_ [Hpen [segs [Hpath [Hcol Hlen]]]]]]]
  end.
  - intros c u [Hc [_ [segs [Hpath [Hcol Hlen]]]]].
    cbn [color SimpleTurtle_Turtle simple_color bind].
    match goal with
    | |- context [for_loop 3 _ _ ?u0] =>
        destruct (simple_layer_sides u0 c)
          as [u1 [new [Hrun1 [Hpath1 [Hcol1 [Hlen1 Hpen1]]]]]]
    end.
    cbn [path penColor] in Hpath1, Hcol1, Hpen1.
    fold (paletteColor c) in Hcol1, Hpen1.
    exists u1. split; [exact Hrun1 |]. split; [lia |].
    replace (1 + c - 1)%nat with (S (c - 1)) by lia.
    split; [intros _; replace (S (c - 1)) with c by lia; exact Hpen1 |].
    exists (segs ++ new).
    split; [rewrite Hpath1, Hpath, app_assoc; reflexivity |].
    rewrite seq_S, !flat_map_app, !map_app, Hcol, Hlen, Hcol1, Hlen1.
    replace (1 + (c - 1))%nat with c by lia. cbn [flat_map].
    rewrite !app_nil_r.
    rewrite (Rabs_pos_eq (50 / INR c)).
    + split; reflexivity.
    + assert (0 < INR c) by (apply lt_0_INR; lia).
      apply Rlt_le, Rdiv_lt_0_compat; lra.
  - split; [lia |]. split; [lia |].
    exists []. rewrite app_nil_r. repeat split.
  - exists t', segs. split; [exact Hrun |]. split; [exact Hpath |].
    split; [rewrite Hcol; reflexivity |].
    split; [exact Hlen |]. apply Hpen. lia.
Qed.

(** X13.  On the recording turtle the artwork is five layers of 33
    segments: the layers are coloured indigo, crimson, olive, teal and
    indigo, and every segment of layer [c] has length [50 / c]; the pen
    is left indigo whatever colour it had. *)
Theorem createGeometricArtwork_layers (t : SimpleTurtle) :
  exists t' segs,
    createGeometricArtwork t = Normal t' /\
    getPath t' = getPath t ++ segs /\
    map seg_color segs =
      repeat "indigo"%string 33 ++ repeat "crimson"%string 33
      ++ repeat "olive"%string 33 ++ repeat "teal"%string 33
      ++ repeat "indigo"%string 33 /\
    map segment_length segs =
      flat_map (fun c => repeat (50 / INR c) 33) (seq 1 5) /\
    penColor t' = "indigo"%string.
Proof.
  exact (simple_artwork_layers t).
Qed.

(** ** The artwork ends where it began *)

Lemma simple_artwork_home (t : SimpleTurtle) :
  exists t',
    createGeometricArtwork t = Normal t' /\ position t' = position t.
Proof.
  unfold createGeometricArtwork, for_range.
  match goal with
  | |- context [for_loop 1 _ ?body t] =>
      destruct (for_loop_invariant body
        (fun u => position u = position t))
        with (count := 5%nat) (i := 1%nat) (s := t)
        as [t' [Hrun Hpos]]
  end.
  - intros c u Hu.
    cbn [color SimpleTurtle_Turtle simple_color bind].
    match goal with
    | |- context [for_loop 3 _ ?inner ?u0] =>
        destruct (for_loop_indexed inner
          (fun i v => (3 <= i)%nat /\ position v = position t))
          with (count := 6%nat) (i := 3%nat) (s := u0)
          as [u1 [Hrun1 [_ Hpos1]]]
    end.
    + intros i v [Hi Hv].
      destruct (simple_polygon_closed v (50 / INR c) i) as [v1 [Hrun2 Hpos2]];
        [lia |].
      rewrite Hrun2. cbn [bind turn SimpleTurtle_Turtle simple_turn].
      eexists. split; [reflexivity |]. cbn [position].
      split; [lia | congruence].
    + split; [lia | exact Hu].
    + exists u1. split; [exact Hrun1 | exact Hpos1].
  - reflexivity.
  - exists t'. split; [exact Hrun | exact Hpos].
Qed.

(** X14.  In exact real arithmetic every polygon of the artwork is
    closed and turning does not move the turtle, so on the recording
    turtle [createGeometricArtwork] ends at the position it started
    from. *)
Theorem createGeometricArtwork_returns_home (t : SimpleTurtle) :
  exists t',
    createGeometricArtwork t = Normal t' /\ position t' = position t.
Proof.
  exact (simple_artwork_home t).
Qed.

(** ** The artwork followed by the planner, as in [main] *)

Lemma toFixed_two_digits (v : R) (n : Z) :
  0 <= v -> IZR n <= v * 100 + / 2 < IZR n + 1 ->
  NumberPrototype.toFixed v 2 =
  NumberPrototype.toFixed (IZR n / 100) 2.
Proof.
  intros Hv Hn. unfold NumberPrototype.toFixed.
  assert (Hn0 : (0 <= n)%Z).
  { apply le_IZR. apply Rnot_lt_le. intros Hneg.
    assert (Hz : (n + 1 <= 0)%Z) by (apply lt_IZR in Hneg; lia).
    apply IZR_le in Hz. rewrite plus_IZR in Hz. lra. }
  apply IZR_le in Hn0.
  destruct (Rlt_dec v 0) as [Hl | _]; [lra |].
  destruct (Rlt_dec (IZR n / 100) 0) as [Hl | _]; [lra |].
  replace (Zfloor (v * 10 ^ 2 + / 2)) with n
    by (symmetry; apply Zfloor_eq; simpl; lra).
  replace (Zfloor (IZR n / 100 * 10 ^ 2 + / 2)) with n
    by (symmetry; apply Zfloor_eq; simpl; lra).
  reflexivity.
Qed.

Lemma sqrt_between (v lo hi : R) :
  0 <= lo -> lo * lo <= v -> v < hi * hi -> 0 <= hi ->
  lo <= sqrt v < hi.
Proof.
  intros Hlo Hlv Hvh Hhi.
  assert (H0 : 0 <= lo * lo) by (apply Rmult_le_pos; assumption).
  split.
  - rewrite <- (sqrt_square lo Hlo). apply sqrt_le_1; lra.
  - rewrite <- (sqrt_square hi Hhi). apply sqrt_lt_1; lra.
Qed.

Lemma toFixed_first_leg :
  NumberPrototype.toFixed
    (computeDistance (mkPoint 10 10) (mkPoint 100 50)) 2 = "98.49"%string.
Proof.
  unfold computeDistance. cbn [x y].
  replace ((10 - 100) * (10 - 100) + (10 - 50) * (10 - 50)) with 9700 by lra.
  pose proof (sqrt_between 9700 98.485 98.495) as Hb.
  destruct Hb as [Hlo Hhi]; try lra.
  rewrite (toFixed_two_digits (sqrt 9700) 9849) by lra.
  unfold NumberPrototype.toFixed.
  destruct (Rlt_dec (9849 / 100) 0) as [Hl | _]; [lra |].
  replace (Zfloor (9849 / 100 * 10 ^ 2 + / 2)) with 9849%Z
    by (symmetry; apply Zfloor_eq; simpl; lra).
  reflexivity.
Qed.

Lemma toFixed_second_leg :
  NumberPrototype.toFixed
    (computeDistance (mkPoint 100 50) (mkPoint 200 150)) 2 = "141.42"%string.
Proof.
  unfold computeDistance. cbn [x y].
  replace ((100 - 200) * (100 - 200) + (50 - 150) * (50 - 150))
    with 20000 by lra.
  pose proof (sqrt_between 20000 141.415 141.425) as Hb.
  destruct Hb as [Hlo Hhi]; try lra.
  rewrite (toFixed_two_digits (sqrt 20000) 14142) by lra.
  unfold NumberPrototype.toFixed.
  destruct (Rlt_dec (14142 / 100) 0) as [Hl | _]; [lra |].
  replace (Zfloor (14142 / 100 * 10 ^ 2 + / 2)) with 14142%Z
    by (symmetry; apply Zfloor_eq; simpl; lra).
  reflexivity.
Qed.

(** X15.  Running the artwork and then the planner on [main]'s three
    waypoints, from any recording turtle: the artwork's 165 segments are
    followed by two indigo segments and the log has four lines, the
    moves being 98.49 and 141.42 units; in exact real arithmetic the two
    segments start where the turtle started (not at the first waypoint)
    and advance by (90, 40) and then by (100, 100). *)
Theorem artwork_then_waypoints (t : SimpleTurtle) :
  exists t1 t2 art instrs a1 a2,
    createGeometricArtwork t = Normal t1 /\
    plotOptimalPath t1 pointsToExplore = Normal (t2, instrs) /\
    List.length art = 165%nat /\
    getPath t2 = getPath t ++ art ++
      [mkSegment (position t)
         (mkPoint (x (position t) + 90) (y (position t) + 40))
         "indigo"%string;
       mkSegment (mkPoint (x (position t) + 90) (y (position t) + 40))
         (mkPoint (x (position t) + 190) (y (position t) + 140))
         "indigo"%string] /\
    position t2 = mkPoint (x (position t) + 190) (y (position t) + 140) /\
    instrs = [("Turn " ++ NumberPrototype.toFixed a1 2 ++ " degrees")%string;
              "Move 98.49 units"%string;
              ("Turn " ++ NumberPrototype.toFixed a2 2 ++ " degrees")%string;
              "Move 141.42 units"%string].
Proof.
  destruct (simple_artwork_layers t)
    as [t1 [art [Hart [Hpath1 [Hcols [_ Hpen1]]]]]].
  destruct (simple_artwork_home t) as [t1' [Hart' Hhome]].
  rewrite Hart in Hart'. injection Hart' as <-.
  assert (Hlen : List.length art = 165%nat).
  { rewrite <- (length_map seg_color), Hcols, !length_app, !repeat_length.
    reflexivity. }
  unfold pointsToExplore.
  destruct (simple_travel [mkPoint 100 50; mkPoint 200 150] t1
              (mkPoint 10 10) [])
    as [t2 [instrs [Hrun [Hpath2 [Hpos2 _]]]]].
  pose proof Hrun as Hinstrs.
  cbn [travel turn forward getHeading SimpleTurtle_Turtle simple_turn
       simple_forward bind] in Hinstrs.
  rewrite toFixed_first_leg, toFixed_second_leg in Hinstrs.
  injection Hinstrs as _ Hinstrs.
  eexists t1, t2, art, instrs, _, _.
  split; [exact Hart |].
  split; [rewrite plotOptimalPath_travel; exact Hrun |].
  split; [exact Hlen |].
  rewrite Hhome, Hpen1 in Hpath2. rewrite Hhome in Hpos2.
  unfold getPath in *. rewrite Hpath1 in Hpath2.
  cbn [legs_from end_of_legs x y] in Hpath2, Hpos2.
  replace (x (position t) + (100 - 10) + (200 - 100))
    with (x (position t) + 190) in Hpath2, Hpos2 by lra.
  replace (y (position t) + (50 - 10) + (150 - 50))
    with (y (position t) + 140) in Hpath2, Hpos2 by lra.
  replace (x (position t) + (100 - 10))
    with (x (position t) + 90) in Hpath2 by lra.
  replace (y (position t) + (50 - 10))
    with (y (position t) + 40) in Hpath2 by lra.
  split; [rewrite Hpath2, <- app_assoc; reflexivity |].
  split; [exact Hpos2 |].
  symmetry. exact Hinstrs.
Qed.

(** ** The heading after planning *)

Lemma atan2_range (b a : R) : - PI < Math.atan2 b a <= PI.
Proof.
  pose proof PI_RGT_0 as Hpi. unfold Math.atan2.
  destruct (Rlt_dec 0 a) as [Hpos | Hnpos].
  - pose proof (atan_bound (b / a)). lra.
  - destruct (Rlt_dec a 0) as [Hneg | Hnneg].
    + pose proof (atan_bound (b / a)) as Hbound.
      destruct (Rle_dec 0 b) as [Hb | Hb].
      * assert (Hz : b / a <= 0).
        { unfold Rdiv. assert (/ a < 0) by (apply Rinv_lt_0_compat; lra).
          replace (b * / a) with (- (b * - / a)) by ring.
          assert (0 <= b * - / a) by (apply Rmult_le_pos; lra). lra. }
        assert (Hat : atan (b / a) <= 0).
        { destruct Hz as [Hz | Hz].
          - apply Rlt_le. rewrite <- atan_0. apply atan_increasing. exact Hz.
          - rewrite Hz, atan_0. lra. }
        lra.
      * assert (Hz : 0 < b / a).
        { unfold Rdiv. assert (/ a < 0) by (apply Rinv_lt_0_compat; lra).
          replace (b * / a) with ((- b) * - / a) by ring.
          apply Rmult_lt_0_compat; lra. }
        assert (Hat : 0 < atan (b / a)).
        { rewrite <- atan_0. apply atan_increasing. exact Hz. }
        lra.
    + destruct (Rlt_dec 0 b); [lra |]. destruct (Rlt_dec b 0); lra.
Qed.

Lemma bearing_range (current next : Point) :
  -180 < bearing current next <= 180.
Proof.
  pose proof PI_RGT_0 as Hpi. unfold bearing.
  destruct (atan2_range (y next - y current) (x next - x current))
    as [Hlo Hhi].
  set (th := Math.atan2 (y next - y current) (x next - x current)) in *.
  assert (Hk : 0 < 180 / PI) by (apply Rdiv_lt_0_compat; lra).
  assert (HkPI : PI * (180 / PI) = 180) by (field; lra).
  replace (th * 180 / PI) with (th * (180 / PI)) by (field; lra).
  set (k := 180 / PI) in *.
  split.
  - apply (Rmult_lt_compat_r k) in Hlo; [| exact Hk]. lra.
  - apply (Rmult_le_compat_r k) in Hhi; [| lra]. lra.
Qed.

Lemma heading_after_range (rest : list Point) :
  forall (h : R) (current : Point),
    rest <> [] -> -180 < heading_after h current rest <= 180.
Proof.
  induction rest as [| next rest IH]; intros h current Hne; [congruence |].
  cbn [heading_after]. destruct rest as [| p rest'].
  - apply bearing_range.
  - apply IH. discriminate.
Qed.

(** X16.  In exact real arithmetic (where there is no negative zero),
    although the turn itself is not normalised, after a sequence of at
    least two waypoints the recording turtle's heading is the bearing of
    the last pair and lies in (-180, 180], whatever heading it started
    with. *)
Theorem plotOptimalPath_heading_range (t : SimpleTurtle) (p0 p1 : Point)
    (rest : list Point) :
  exists t' instrs,
    plotOptimalPath t (p0 :: p1 :: rest) = Normal (t', instrs) /\
    getHeading t' = heading_after (getHeading t) p0 (p1 :: rest) /\
    -180 < getHeading t' <= 180.
Proof.
  rewrite plotOptimalPath_travel.
  destruct (simple_travel (p1 :: rest) t p0 [])
    as [t' [instrs [Hrun [_ [_ [Hhead _]]]]]].
  exists t', instrs. split; [exact Hrun |]. split; [exact Hhead |].
  cbn [getHeading SimpleTurtle_Turtle]. rewrite Hhead.
  apply heading_after_range. discriminate.
Qed.

(** ** A spiral of one step *)

Lemma chord_full_turn (r : R) : calculateChordLength r 360 = 0.
Proof.
  unfold calculateChordLength.
  replace (360 / 2 * PI / 180) with PI by lra.
  rewrite sin_PI.
  replace (2 * r * 0 * 1000000) with (IZR 0) by lra.
  rewrite round_IZR. lra.
Qed.

(** X17.  In exact real arithmetic, with a single iteration the chord
    subtends a full turn and has length 0: on the recording turtle the
    spiral records one segment from the turtle's position to itself,
    leaves the position unchanged and advances the heading by 360,
    whatever the radius. *)
Theorem drawSpiralingCircle_single_step (t : SimpleTurtle) (r : R) :
  exists t',
    drawSpiralingCircle t r 1 = Normal t' /\
    position t' = position t /\
    getHeading t' = getHeading t + 360 /\
    getPath t' = getPath t ++
                 [mkSegment (position t) (position t) (penColor t)].
Proof.
  change 1 with (INR 1). rewrite drawSpiralingCircle_steps.
  cbn [spiral_steps]. unfold spiral_step.
  replace (360 / INR 1) with 360 by (simpl; lra).
  replace (r * 1.05 ^ 0) with r by (simpl; lra).
  rewrite chord_full_turn.
  cbn [forward turn SimpleTurtle_Turtle simple_forward simple_turn bind
       position heading penColor path].
  replace (mkPoint (x (position t) + 0 * cos (heading t * PI / 180))
                   (y (position t) + 0 * sin (heading t * PI / 180)))
    with (position t)
    by (destruct (position t) as [px py]; cbn [x y]; f_equal; ring).
  eexists. split; [reflexivity |]. repeat split.
Qed.

Lemma computeDistance_zero_iff_witness :
  computeDistance (mkPoint 1 2) (mkPoint 1 2) = 0 /\
  (computeDistance (mkPoint 1 2) (mkPoint 1 2) = 0 ->
   mkPoint 1 2 = mkPoint 1 2).
Proof.
  split.
  - apply (proj2 (computeDistance_zero_iff (mkPoint 1 2) (mkPoint 1 2))).
    reflexivity.
  - apply (proj1 (computeDistance_zero_iff (mkPoint 1 2) (mkPoint 1 2))).
Defined.

(** * The program's own arithmetic: where rounding breaks exactness *)

Module Binary64Facts.

Import PrimFloat FloatOps FloatAxioms SpecFloat Binary64.
Local Open Scope float_scope.

(** ** Distance on binary64 numbers *)

(** Rounding does not look at the sign. *)
Lemma binary_round_aux_opp (s : bool) (m e : Z) (l : location) :
  binary_round_aux prec emax (negb s) m e l
  = SFopp (binary_round_aux prec emax s m e l).
Proof.
  unfold binary_round_aux.
  destruct (shr_fexp prec emax m e l) as [mrs e1].
  destruct (shr_fexp prec emax _ e1 loc_Exact) as [mrs2 e2].
  destruct (shr_m mrs2); try reflexivity.
  destruct (Z.leb e2 (emax - prec)); reflexivity.
Qed.

Lemma binary_normalize_opp (m e : Z) :
  m <> 0%Z ->
  binary_normalize prec emax (- m) e false
  = SFopp (binary_normalize prec emax m e false).
Proof.
  intros Hm. destruct m as [| p | p]; [congruence | |]; simpl Z.opp;
    unfold binary_normalize, binary_round;
    destruct (shl_align p e _) as [mz ez].
  - apply (binary_round_aux_opp false).
  - rewrite <- (binary_round_aux_opp true). reflexivity.
Qed.

(** Swapping the operands of a subtraction negates the result, unless
    the result is the same in both orders (a zero or a NaN). *)
Lemma SFsub_swap (u v : spec_float) :
  SF64sub v u = SFopp (SF64sub u v) \/ SF64sub v u = SF64sub u v.
Proof.
  unfold SF64sub.
  destruct u as [su | su | | su mu eu], v as [sv | sv | | sv mv ev];
    try (destruct su; destruct sv; simpl; auto; fail);
    try (destruct su; simpl; auto; fail);
    try (destruct sv; simpl; auto; fail);
    try (simpl; auto; fail).
  unfold SFsub. rewrite (Z.min_comm ev eu).
  set (ez := Z.min eu ev).
  set (a := cond_Zopp su (Z.pos (fst (shl_align mu eu ez)))).
  set (b := cond_Zopp sv (Z.pos (fst (shl_align mv ev ez)))).
  destruct (Z.eq_dec (a - b) 0) as [Hz | Hnz].
  - right. replace (b - a)%Z with 0%Z by lia. rewrite Hz. reflexivity.
  - left. replace (b - a)%Z with (- (a - b))%Z by lia.
    apply binary_normalize_opp. exact Hnz.
Qed.

Lemma SFmul_opp_opp (u : spec_float) :
  SF64mul (SFopp u) (SFopp u) = SF64mul u u.
Proof.
  unfold SF64mul. destruct u as [s | s | | s m e]; try destruct s; reflexivity.
Qed.

Lemma square_of_difference (u v : float) :
  (v - u) * (v - u) = (u - v) * (u - v).
Proof.
  apply Prim2SF_inj. rewrite !mul_spec, !sub_spec.
  destruct (SFsub_swap (Prim2SF u) (Prim2SF v)) as [H | H]; rewrite H.
  - apply SFmul_opp_opp.
  - reflexivity.
Qed.

Lemma finite_shape (u : float) :
  is_finite u = true ->
  (exists s, Prim2SF u = S754_zero s) \/
  (exists s m e, Prim2SF u = S754_finite s m e).
Proof.
  unfold is_finite, is_nan, is_infinity. rewrite !eqb_spec, abs_spec.
  change (Prim2SF infinity) with (S754_infinity false).
  destruct (Prim2SF u) as [s | s | | s m e].
  - intros _. left. exists s. reflexivity.
  - destruct s; intros H; vm_compute in H; discriminate H.
  - intros H; vm_compute in H; discriminate H.
  - intros _. right. exists s, m, e. reflexivity.
Qed.

Lemma sub_self (u : float) : is_finite u = true -> u - u = 0.
Proof.
  intros Hfin. apply Prim2SF_inj. rewrite sub_spec.
  change (Prim2SF 0) with (S754_zero false).
  destruct (finite_shape u Hfin) as [[s Hu] | [s [m [e Hu]]]]; rewrite Hu.
  - destruct s; reflexivity.
  - unfold SF64sub, SFsub. rewrite Z.sub_diag. reflexivity.
Qed.

Lemma computeDistance64_refl (p : Point64) :
  is_finite (x64 p) = true -> is_finite (y64 p) = true ->
  computeDistance64 p p = 0.
Proof.
  intros Hx Hy. unfold computeDistance64. cbv zeta.
  rewrite (sub_self _ Hx), (sub_self _ Hy). vm_compute. reflexivity.
Qed.

Lemma computeDistance64_sym (a b : Point64) :
  computeDistance64 a b = computeDistance64 b a.
Proof.
  unfold computeDistance64. cbv zeta.
  rewrite (square_of_difference (x64 a) (x64 b)).
  rewrite (square_of_difference (y64 a) (y64 b)). reflexivity.
Qed.

(** C8, as amended.  On binary64 numbers, as the code computes, the
    distance from a point with finite coordinates to itself is 0 and
    the distance is the same double in both directions; so it is in
    exact real arithmetic, where the triangle inequality holds too. *)
Theorem computeDistance_laws :
  (forall p : Point64,
     is_finite (x64 p) = true -> is_finite (y64 p) = true ->
     computeDistance64 p p = 0) /\
  (forall a b : Point64, computeDistance64 a b = computeDistance64 b a) /\
  (forall p : Point, computeDistance p p = 0%R) /\
  (forall a b : Point, computeDistance a b = computeDistance b a) /\
  (forall a b c : Point,
     (computeDistance a c <= computeDistance a b + computeDistance b c)%R).
Proof.
  split; [exact computeDistance64_refl |].
  split; [exact computeDistance64_sym |].
  split; [exact computeDistance_refl |].
  split; [exact computeDistance_sym | exact computeDistance_triangle].
Qed.

Lemma computeDistance_laws_witness :
  is_finite 1 = true /\ is_finite 2 = true /\
  computeDistance64 (mkPoint64 1 2) (mkPoint64 1 2) = 0.
Proof.
  split; [reflexivity |]. split; [reflexivity |].
  apply (proj1 computeDistance_laws (mkPoint64 1 2)); reflexivity.
Defined.

Lemma rounded_positive_not_below_zero (m e : Z) (l : location) :
  SFltb (binary_round_aux prec emax false m e l) (S754_zero false) = false.
Proof.
  unfold binary_round_aux.
  destruct (shr_fexp prec emax m e l) as [mrs e1].
  destruct (shr_fexp prec emax _ e1 loc_Exact) as [mrs2 e2].
  destruct (shr_m mrs2); try reflexivity.
  destruct (Z.leb e2 (emax - prec)); reflexivity.
Qed.

Lemma sqrt_not_below_zero (v : float) : (sqrt v <? 0) = false.
Proof.
  rewrite ltb_spec, sqrt_spec.
  change (Prim2SF 0) with (S754_zero false).
  unfold SF64sqrt, SFsqrt.
  destruct (Prim2SF v) as [s | s | | s m e]; try (destruct s; reflexivity);
    try reflexivity.
  destruct s; [reflexivity |].
  destruct (SFsqrt_core_binary prec emax (Z.pos m) e) as [[mz ez] lz].
  apply rounded_positive_not_below_zero.
Qed.

(** X19.  On binary64 numbers, as the code computes, the distance is
    never negative, for all doubles: it is a non-negative double or
    NaN. *)
Theorem computeDistance64_never_negative (a b : Point64) :
  (computeDistance64 a b <? 0) = false.
Proof.
  unfold computeDistance64. cbv zeta. apply sqrt_not_below_zero.
Qed.

(** ** Counts that are not positive, on binary64 numbers *)

(** X18.  On binary64 numbers, when the count is not greater than 0
    (zero, negative or NaN), the loop test fails at once: both
    generators return normally with the turtle untouched, whatever the
    turtle, the fuel and [Math.sin]. *)
Theorem nonpositive_count_noop_binary64 {T : Type} `{Turtle64 T}
    (Math_sin : float -> float) (fuel : nat) (t : T) (s r b : float) :
  (0 <? b) = false ->
  drawPolygon64 fuel t s b = Some (Normal t) /\
  drawSpiralingCircle64 Math_sin fuel t r b = Some (Normal t).
Proof.
  intros Hb. unfold drawPolygon64, drawSpiralingCircle64.
  destruct fuel; cbn [for_loop64]; rewrite Hb; split; reflexivity.
Qed.

Lemma nonpositive_count_noop_binary64_witness :
  (0 <? nan) = false /\
  drawPolygon64 5 ([] : CallLog64) 10 nan = Some (Normal []).
Proof.
  split; [reflexivity |].
  apply (nonpositive_count_noop_binary64 (fun v => v) 5 ([] : CallLog64)
           10 10 nan).
  reflexivity.
Defined.

(** ** Where rounding breaks exactness *)

(** C8 as stated fails on binary64 numbers: from (0,0) to (4,4) the
    code's distance exceeds the sum of its distances through (1,1). *)
Lemma triangle_fails_in_binary64 :
  (computeDistance64 (mkPoint64 0 0) (mkPoint64 4 4)
   <=? computeDistance64 (mkPoint64 0 0) (mkPoint64 1 1)
       + computeDistance64 (mkPoint64 1 1) (mkPoint64 4 4)) = false.
Proof. vm_compute. reflexivity. Qed.

(** C2 as stated fails twice.  On binary64 numbers seven turns of the
    rounded quotient 360/7 take a heading of 0 strictly between 360 and
    720, so not to the initial heading modulo 360.  And a side length of
    -1 records segments of length 1, not -1. *)
Lemma heptagon_heading_and_negative_side :
  (exists log : CallLog64,
     drawPolygon64 10 ([] : CallLog64) 1 7 = Some (Normal log) /\
     (360 <? headingAfter64 0 log) = true /\
     (headingAfter64 0 log <? 720) = true) /\
  (exists (t' : SimpleTurtle) (sg : Segment),
     drawPolygon newSimpleTurtle (-1)%R (INR 3) = Normal t' /\
     In sg (getPath t') /\
     segment_length sg <> (-1)%R).
Proof.
  split.
  - eexists. split; [vm_compute; reflexivity |].
    split; vm_compute; reflexivity.
  - rewrite drawPolygon_repeat.
    destruct (simple_polygon_steps 3 (-1)%R (360 / INR 3)%R newSimpleTurtle)
      as [t' [segs [Hrun [Hpath [Hlen [Hseg _]]]]]].
    destruct segs as [| sg segs]; [discriminate Hlen |].
    exists t', sg. split; [exact Hrun |]. split.
    + unfold getPath. rewrite Hpath. apply in_or_app. right. left. reflexivity.
    + inversion Hseg as [| ? ? Hsg _]. rewrite Hsg.
      rewrite Rabs_left by lra. lra.
Qed.

(** Whatever [Math.sin] returns, seven iterations turn by the rounded
    quotient 360/7 each, and a heading of 0 ends strictly between 360
    and 720. *)
Lemma spiral_heading_between :
  forall Math_sin : float -> float,
  exists log : CallLog64,
    drawSpiralingCircle64 Math_sin 10 ([] : CallLog64) 1 7
      = Some (Normal log) /\
    (360 <? headingAfter64 0 log) = true /\
    (headingAfter64 0 log <? 720) = true.
Proof.
  intros Math_sin. eexists. split; [vm_compute; reflexivity |].
  split; vm_compute; reflexivity.
Qed.

(** C6 as stated fails on binary64 numbers: no implementation of
    [Math.sin] makes seven iterations from a heading of 0 end at a
    heading of exactly 360; the call does return, and the heading it
    reaches is 360.00000000000006. *)
Lemma spiral_heading_in_binary64 :
  ~ (exists (Math_sin : float -> float) (log : CallLog64),
       drawSpiralingCircle64 Math_sin 10 ([] : CallLog64) 1 7
         = Some (Normal log) /\
       (headingAfter64 0 log =? 360) = true).
Proof.
  intros [Math_sin [log [Hrun Hhead]]].
  vm_compute in Hrun. injection Hrun as <-.
  vm_compute in Hhead. discriminate Hhead.
Qed.

End Binary64Facts.
